(** * The inequality-to-equality converter

    A shallow embedding of [src/sbo/src/_converters/inequality_to_equality.py]
    (class [InequalityToEquality]) and the properties of its [convert] and
    [interpret] methods.

    Numbers.  Python ints and floats are modelled as exact rationals [Q]:
    [math.floor] and [math.ceil] are [Qfloor] and [Qceiling], comparisons are
    [Qlt]/[Qle].  Rounding error of binary floating point, infinities and NaN
    are outside the model; one computation on binary64 numbers
    ([binary64_lhs_rounds]) marks where an identity of exact arithmetic stops
    holding for the floats of the program.

    Dicts keyed by variable names are [gmap string Q]; a model's ordered
    variable list is a [list]; the converter's three attributes are a record
    threaded through a small state-and-exception monad, so that what is left
    in [self] when a method raises stays visible. *)

From Stdlib Require Import QArith Qround Qminmax Lia Lqa PrimFloat.
From stdpp Require Import functions base option list gmap strings.

(** ** The problem model consumed by the converter *)

(** [Variable.Type]: a closed enumeration, so the [else] branch of the
    variable-copy loop of [convert] has no value to run on. *)
Inductive VarType := CONTINUOUS | BINARY | INTEGER.

(** [Constraint.Sense]: closed as well; the [else] branches of the two
    constraint loops are unreachable. *)
Inductive Sense := LE | GE | EQ.

Inductive ObjSense := MINIMIZE | MAXIMIZE.

#[global] Instance VarType_eq_dec : EqDecision VarType.
Proof. solve_decision. Defined.

#[global] Instance Sense_eq_dec : EqDecision Sense.
Proof. solve_decision. Defined.

Module Var.
Record t := mk
  { name : string; vartype : VarType; lowerbound : Q; upperbound : Q }.
End Var.

Module LinearConstraint.
Record t := mk
  { linear : gmap string Q; sense : Sense; rhs : Q; name : string }.
End LinearConstraint.

Module QuadraticConstraint.
Record t := mk
  { linear : gmap string Q;
    quadratic : gmap (string * string) Q;
    sense : Sense; rhs : Q; name : string }.
End QuadraticConstraint.

Module QuadraticObjective.
Record t := mk
  { constant : Q;
    linear : gmap string Q;
    quadratic : gmap (string * string) Q;
    sense : ObjSense }.
End QuadraticObjective.

Module QuadraticProgram.
Record t := mk
  { name : string;
    variables : list Var.t;
    linear_constraints : list LinearConstraint.t;
    quadratic_constraints : list QuadraticConstraint.t;
    objective : QuadraticObjective.t }.
End QuadraticProgram.

(** Exceptions a method can leave with. *)
Inductive exn :=
| QiskitOptimizationError (msg : string)
| ValueError (msg : string)
| KeyError (key : string)
| IndexError.

Inductive outcome (A : Type) :=
| Return (a : A)
| Raise (e : exn).
Arguments Return {A} a.
Arguments Raise {A} e.

(** What iterating over a dense array yields: the entries of a
    one-dimensional array are [numpy.float64] scalars, which are instances of
    [float]; the entries of a two-dimensional array are its rows, which are
    arrays and no instances of [float]. *)
Inductive element :=
| Scalar (v : Q)
| Row (row : list Q).

(** ** Operations of the problem-model collaborator *)

Section Collaborator.
Import QuadraticProgram.
Local Open Scope Q_scope.

(** Modelled from the spec: the constructor [QuadraticProgram(name=...)] is
    not in src; a fresh model has the given name, no variable, no constraint
    and an empty objective. *)
Definition new_program (n : string) : QuadraticProgram.t :=
  {| name := n; variables := []; linear_constraints := [];
     quadratic_constraints := [];
     objective := QuadraticObjective.mk 0 ∅ ∅ MINIMIZE |}.

Definition var_names (qp : QuadraticProgram.t) : list string :=
  Var.name <$> variables qp.

(** Modelled from the spec: variable registration is not in src.  "names must
    be unique within a model or the collaborator must fail": the variable is
    appended after the existing ones, unless its name is taken. *)
Definition _add_variable (x : Var.t) (qp : QuadraticProgram.t)
  : outcome QuadraticProgram.t :=
  if decide (Var.name x ∈ var_names qp)
  then Raise (QiskitOptimizationError ("Variable name already exists: " +:+ Var.name x))
  else Return {| name := name qp; variables := variables qp ++ [x];
                 linear_constraints := linear_constraints qp;
                 quadratic_constraints := quadratic_constraints qp;
                 objective := objective qp |}.

(** Modelled from the spec: add-binary(name) is not in src; it takes no
    bounds, a binary variable ranges over 0 and 1. *)
Definition binary_var (n : string) : QuadraticProgram.t → outcome QuadraticProgram.t :=
  _add_variable (Var.mk n BINARY 0 1).

(** Modelled from the spec: add-integer(name, lower, upper) is not in src. *)
Definition integer_var (n : string) (lb ub : Q)
  : QuadraticProgram.t → outcome QuadraticProgram.t :=
  _add_variable (Var.mk n INTEGER lb ub).

(** Modelled from the spec: add-continuous(name, lower, upper) is not in src. *)
Definition continuous_var (n : string) (lb ub : Q)
  : QuadraticProgram.t → outcome QuadraticProgram.t :=
  _add_variable (Var.mk n CONTINUOUS lb ub).

(** Modelled from the spec: set-minimize / set-maximize(constant, linear-map,
    quadratic-map) are not in src; they replace the objective. *)
Definition set_objective (s : ObjSense) (c : Q) (l : gmap string Q)
    (q : gmap (string * string) Q) (qp : QuadraticProgram.t) : QuadraticProgram.t :=
  {| name := name qp; variables := variables qp;
     linear_constraints := linear_constraints qp;
     quadratic_constraints := quadratic_constraints qp;
     objective := QuadraticObjective.mk c l q s |}.

Definition minimize := set_objective MINIMIZE.
Definition maximize := set_objective MAXIMIZE.

Definition declared (qp : QuadraticProgram.t) (n : string) : Prop :=
  n ∈ var_names qp.

#[global] Instance declared_dec qp n : Decision (declared qp n).
Proof. unfold declared. apply _. Defined.

(** Modelled from the spec: add-linear-constraint(linear-map, sense, rhs,
    name) is not in src; it "fail[s] if any referenced variable name is
    undeclared" and otherwise appends the constraint. *)
Definition linear_constraint (l : gmap string Q) (s : Sense) (r : Q)
    (n : string) (qp : QuadraticProgram.t) : outcome QuadraticProgram.t :=
  if decide (Forall (declared qp) (map_to_list l).*1)
  then Return {| name := name qp; variables := variables qp;
                 linear_constraints :=
                   linear_constraints qp ++ [LinearConstraint.mk l s r n];
                 quadratic_constraints := quadratic_constraints qp;
                 objective := objective qp |}
  else Raise (QiskitOptimizationError ("Undeclared variable in constraint " +:+ n)).

(** Modelled from the spec: add-quadratic-constraint(linear-map,
    quadratic-map, sense, rhs, name) is not in src; same failure rule. *)
Definition quadratic_constraint (l : gmap string Q)
    (q : gmap (string * string) Q) (s : Sense) (r : Q)
    (n : string) (qp : QuadraticProgram.t) : outcome QuadraticProgram.t :=
  if decide (Forall (declared qp) (map_to_list l).*1
             ∧ Forall (λ p, declared qp p.1 ∧ declared qp p.2) (map_to_list q).*1)
  then Return {| name := name qp; variables := variables qp;
                 linear_constraints := linear_constraints qp;
                 quadratic_constraints :=
                   quadratic_constraints qp ++ [QuadraticConstraint.mk l q s r n];
                 objective := objective qp |}
  else Raise (QiskitOptimizationError ("Undeclared variable in constraint " +:+ n)).

(** [get_variable]: the first variable of that name. *)
Definition get_variable (qp : QuadraticProgram.t) (n : string) : option Var.t :=
  list_find (λ x, Var.name x = n) (variables qp) ≫= λ p, Some p.2.

Definition get_num_vars (qp : QuadraticProgram.t) : nat := length (variables qp).

(** Interval of [c * x] for [x] between [lo] and [hi]. *)
Definition term_bounds (c lo hi : Q) : Q * Q :=
  (Qmin (c * lo) (c * hi), Qmax (c * lo) (c * hi)).

Definition add_bounds (a b : Q * Q) : Q * Q := (a.1 + b.1, a.2 + b.2).

(** Modelled from the spec: [LinearExpression.bounds] is not in src.  "the
    achievable interval [lb, ub] ... using interval (bound) arithmetic over
    the variable bounds (sum of each linear term's bound)".  A name that the
    model does not declare contributes nothing. *)
Definition linear_bounds (qp : QuadraticProgram.t) (l : gmap string Q) : Q * Q :=
  foldr (λ '(n, c) acc,
           match get_variable qp n with
           | Some x => add_bounds (term_bounds c (Var.lowerbound x) (Var.upperbound x)) acc
           | None => acc
           end) (0, 0) (map_to_list l).

(** Interval of [c * x * y], the product rule of interval arithmetic. *)
Definition product_bounds (c lx ux ly uy : Q) : Q * Q :=
  let ps := [c * (lx * uy); c * (ux * ly); c * (ux * uy)] in
  (foldr Qmin (c * (lx * ly)) ps, foldr Qmax (c * (lx * ly)) ps).

(** Modelled from the spec: [QuadraticExpression.bounds] is not in src; "the
    quadratic term's bound", by the same interval arithmetic. *)
Definition quadratic_bounds (qp : QuadraticProgram.t)
    (q : gmap (string * string) Q) : Q * Q :=
  foldr (λ '((n1, n2), c) acc,
           match get_variable qp n1, get_variable qp n2 with
           | Some x, Some y =>
               add_bounds (product_bounds c (Var.lowerbound x) (Var.upperbound x)
                             (Var.lowerbound y) (Var.upperbound y)) acc
           | _, _ => acc
           end) (0, 0) (map_to_list q).

(** Modelled from the spec: [LinearExpression.to_array] is not in src; the
    "dense-array materialization": one coefficient per variable of the owning
    model, in variable order, zero where the expression has no term. *)
Definition linear_to_array (qp : QuadraticProgram.t) (l : gmap string Q)
  : list element :=
  (λ x, Scalar (default 0 (l !! Var.name x))) <$> variables qp.

(** Modelled from the spec: [QuadraticExpression.to_array] is not in src; the
    dense form of a quadratic expression is a square array, one row and one
    column per variable of the owning model, holding the coefficient of the
    pair; a loop over it runs through its rows. *)
Definition quadratic_to_array (qp : QuadraticProgram.t)
    (q : gmap (string * string) Q) : list element :=
  (λ x, Row ((λ y, default 0 (q !! (Var.name x, Var.name y))) <$> variables qp))
    <$> variables qp.

End Collaborator.

(** ** The converter object and its methods *)

(** The attributes of an [InequalityToEquality] instance. *)
Record Converter := mkConverter
  { _src : option QuadraticProgram.t;
    _dst : option QuadraticProgram.t;
    _mode : string }.

(** A method body: it reads and updates [self] and either returns a value or
    raises; updates made before a [raise] stay in [self]. *)
Definition M (A : Type) : Type := Converter → outcome A * Converter.

Definition ret {A} (a : A) : M A := λ self, (Return a, self).

Definition raise {A} (e : exn) : M A := λ self, (Raise e, self).

Definition bind {A B} (m : M A) (f : A → M B) : M B :=
  λ self, match m self with
          | (Return a, self') => f a self'
          | (Raise e, self') => (Raise e, self')
          end.

#[global] Instance M_ret : MRet M := @ret.
#[global] Instance M_bind : MBind M := λ A B f m, bind m f.

(** A [for] loop collecting one value per element. *)
Fixpoint mapM {A B} (f : A → M B) (l : list A) : M (list B) :=
  match l with
  | [] => ret []
  | a :: l' => b ← f a; bs ← mapM f l'; ret (b :: bs)
  end.

(** A [for] loop run for its effect on [self]. *)
Fixpoint forM_ {A} (f : A → M unit) (l : list A) : M unit :=
  match l with
  | [] => ret tt
  | a :: l' => f a;; forM_ f l'
  end.

Definition set_src (p : QuadraticProgram.t) : M unit :=
  λ self, (Return tt, mkConverter (Some p) (_dst self) (_mode self)).

Definition set_dst (p : QuadraticProgram.t) : M unit :=
  λ self, (Return tt, mkConverter (_src self) (Some p) (_mode self)).

Definition get_mode : M string := λ self, (Return (_mode self), self).

(** [self._dst.op(...)]: an in-place update of the destination model, which
    may raise. *)
Definition on_dst (op : QuadraticProgram.t → outcome QuadraticProgram.t) : M unit :=
  λ self, match _dst self with
          | None => (Raise (ValueError "QuadraticProgram not initialized!"), self)
          | Some d => match op d with
                      | Return d' => (Return tt, mkConverter (_src self) (Some d') (_mode self))
                      | Raise e => (Raise e, self)
                      end
          end.

(** [__init__(mode)]; the default argument is ["auto"]. *)
Definition __init__ (mode : string) : Converter := mkConverter None None mode.

(** The [mode] property: getter and setter. *)
Definition mode (self : Converter) : string := _mode self.

Definition set_mode (m : string) : M unit :=
  λ self, (Return tt, mkConverter (_src self) (_dst self) m).

Section Methods.
Local Open Scope Q_scope.

(** [float.is_integer]. *)
Definition is_integer (v : Q) : bool := Qeq_bool (inject_Z (Qfloor v)) v.

(** [isinstance(v, float)] on what a loop over an array yields. *)
Definition isinstance_float (v : element) : bool :=
  match v with
  | Scalar _ => true
  | Row _ => false
  end.

(** [_any_float]: [any(isinstance(v, float) and not v.is_integer() for v in
    values)]; [and] does not call [is_integer] on a value that is no float. *)
Definition _any_float (values : list element) : bool :=
  existsb (λ v, match v with
                | Scalar x => isinstance_float v && negb (is_integer x)
                | Row _ => isinstance_float v && false
                end) values.

Definition dquote : string := String (Ascii.ascii_of_nat 34) EmptyString.

(** The message of lines 163-164 and 217-218; only its first literal is an
    f-string, the second one keeps the braces. *)
Definition float_coefficients_msg (name : string) : string :=
  dquote +:+ name +:+ dquote +:+ " contains float coefficients. "
  +:+ "We can not use an integer slack variable for " +:+ dquote +:+ "{name}" +:+ dquote.

(** Lines 159-167 (and 213-221): from [self._mode] and [any_float] to the
    local [mode]. *)
Definition resolve_mode (name : string) (any_float : bool) : M string :=
  mode ← get_mode;
  if decide (mode = "integer") then
    if any_float then raise (QiskitOptimizationError (float_coefficients_msg name))
    else ret mode
  else if decide (mode = "auto") then
    ret (if any_float then "continuous" else "integer")
  else ret mode.

(** Lines 169-175 (and 223-229). *)
Definition round_rhs (mode : string) (sense : Sense) (rhs : Q) : Q :=
  let new_rhs := rhs in
  if decide (mode = "integer") then
    let new_rhs := if decide (sense = LE) then inject_Z (Qfloor new_rhs) else new_rhs in
    let new_rhs := if decide (sense = GE) then inject_Z (Qceiling new_rhs) else new_rhs in
    new_rhs
  else new_rhs.

(** Lines 181-190 (and 236-245): the slack upper bound and the sign. *)
Definition slack_bound (sense : Sense) (new_rhs lhs_lb lhs_ub : Q) : Q * Z :=
  let var_ub := 0 in
  let sign := 0%Z in
  match sense with
  | LE => let var_ub := new_rhs - lhs_lb in
          (var_ub, if Qlt_le_dec 0 var_ub then 1%Z else sign)
  | GE => let var_ub := lhs_ub - new_rhs in
          (var_ub, if Qlt_le_dec 0 var_ub then (-1)%Z else sign)
  | EQ => (var_ub, sign)
  end.

(** The dict [mode_name] of lines 195 and 250. *)
Definition mode_name (mode : string) : option string :=
  if decide (mode = "integer") then Some "int"
  else if decide (mode = "continuous") then Some "continuous"
  else None.

Definition _delimiter : string := "@".

(** Lines 192-201 (and 247-256): create the slack variable, if one is
    needed, and add its term to the name-keyed coefficient dict. *)
Definition add_slack (mode name : string) (var_ub : Q) (sign : Z)
    (new_linear : gmap string Q) : M (gmap string Q) :=
  if Qlt_le_dec 0 var_ub then
    match mode_name mode with
    | None => raise (KeyError mode)
    | Some tag =>
        let slack_name := name +:+ _delimiter +:+ tag +:+ "_slack" in
        (if decide (mode = "integer") then
           on_dst (integer_var slack_name 0 var_ub)
         else if decide (mode = "continuous") then
           on_dst (continuous_var slack_name 0 var_ub)
         else ret tt);;
        ret (<[slack_name := inject_Z sign]> new_linear)
    end
  else ret new_linear.

(** Reading [self._dst] where the model is needed; the [None] test of lines
    152, 205 and 268. *)
Definition get_dst : M QuadraticProgram.t :=
  λ self, match _dst self with
          | None => (Raise (ValueError "QuadraticProgram not initialized!"), self)
          | Some d => (Return d, self)
          end.

Definition get_src : M QuadraticProgram.t :=
  λ self, match _src self with
          | None => (Raise (ValueError "QuadraticProgram not initialized!"), self)
          | Some d => (Return d, self)
          end.

(** [_add_slack_var_linear_constraint].  The bounds and the dense array of
    [constraint.linear] are those of the model owning the constraint. *)
Definition _add_slack_var_linear_constraint (owner : QuadraticProgram.t)
    (constraint : LinearConstraint.t)
  : M (gmap string Q * Sense * Q * string) :=
  get_dst;;
  let linear := LinearConstraint.linear constraint in
  let sense := LinearConstraint.sense constraint in
  let name := LinearConstraint.name constraint in
  let any_float := _any_float (linear_to_array owner linear) in
  mode ← resolve_mode name any_float;
  let new_rhs := round_rhs mode sense (LinearConstraint.rhs constraint) in
  let lin_bounds := linear_bounds owner linear in
  let lhs_lb := lin_bounds.1 in
  let lhs_ub := lin_bounds.2 in
  let '(var_ub, sign) := slack_bound sense new_rhs lhs_lb lhs_ub in
  new_linear ← add_slack mode name var_ub sign linear;
  ret (new_linear, EQ, new_rhs, name).

(** [_add_slack_var_quadratic_constraint]. *)
Definition _add_slack_var_quadratic_constraint (owner : QuadraticProgram.t)
    (constraint : QuadraticConstraint.t)
  : M (gmap string Q * gmap (string * string) Q * Sense * Q * string) :=
  get_dst;;
  let quadratic := QuadraticConstraint.quadratic constraint in
  let linear := QuadraticConstraint.linear constraint in
  let sense := QuadraticConstraint.sense constraint in
  let name := QuadraticConstraint.name constraint in
  let any_float := _any_float (linear_to_array owner linear)
                   || _any_float (quadratic_to_array owner quadratic) in
  mode ← resolve_mode name any_float;
  let new_rhs := round_rhs mode sense (QuadraticConstraint.rhs constraint) in
  let lin_bounds := linear_bounds owner linear in
  let quad_bounds := quadratic_bounds owner quadratic in
  let lhs_lb := lin_bounds.1 + quad_bounds.1 in
  let lhs_ub := lin_bounds.2 + quad_bounds.2 in
  let '(var_ub, sign) := slack_bound sense new_rhs lhs_lb lhs_ub in
  new_linear ← add_slack mode name var_ub sign linear;
  ret (new_linear, quadratic, EQ, new_rhs, name).

Definition valid_modes : list string := ["integer"; "continuous"; "auto"].

(** Lines 80-90: one destination variable per source variable. *)
Definition copy_variable (x : Var.t) : M unit :=
  match Var.vartype x with
  | BINARY => on_dst (binary_var (Var.name x))
  | INTEGER => on_dst (integer_var (Var.name x) (Var.lowerbound x) (Var.upperbound x))
  | CONTINUOUS => on_dst (continuous_var (Var.name x) (Var.lowerbound x) (Var.upperbound x))
  end.

(** [convert]. *)
Definition convert (problem : QuadraticProgram.t) : M QuadraticProgram.t :=
  set_src problem;;
  let src := problem in
  set_dst (new_program (QuadraticProgram.name problem));;
  mode ← get_mode;
  if decide (mode ∉ valid_modes) then
    raise (QiskitOptimizationError ("Unsupported mode is selected: " +:+ mode))
  else
  forM_ copy_variable (QuadraticProgram.variables src);;
  new_linear_constraints ←
    mapM (λ lin_const,
            match LinearConstraint.sense lin_const with
            | EQ => ret (LinearConstraint.linear lin_const, LinearConstraint.sense lin_const,
                         LinearConstraint.rhs lin_const, LinearConstraint.name lin_const)
            | LE | GE => _add_slack_var_linear_constraint src lin_const
            end) (QuadraticProgram.linear_constraints src);
  new_quadratic_constraints ←
    mapM (λ quad_const,
            match QuadraticConstraint.sense quad_const with
            | EQ => ret (QuadraticConstraint.linear quad_const,
                         QuadraticConstraint.quadratic quad_const,
                         QuadraticConstraint.sense quad_const,
                         QuadraticConstraint.rhs quad_const,
                         QuadraticConstraint.name quad_const)
            | LE | GE => _add_slack_var_quadratic_constraint src quad_const
            end) (QuadraticProgram.quadratic_constraints src);
  let constant := QuadraticObjective.constant (QuadraticProgram.objective src) in
  let linear := QuadraticObjective.linear (QuadraticProgram.objective src) in
  let quadratic := QuadraticObjective.quadratic (QuadraticProgram.objective src) in
  (match QuadraticObjective.sense (QuadraticProgram.objective src) with
   | MINIMIZE => on_dst (λ d, Return (minimize constant linear quadratic d))
   | MAXIMIZE => on_dst (λ d, Return (maximize constant linear quadratic d))
   end);;
  forM_ (λ '(l, s, r, n), on_dst (linear_constraint l s r n)) new_linear_constraints;;
  forM_ (λ '(l, q, s, r, n), on_dst (quadratic_constraint l q s r n))
    new_quadratic_constraints;;
  get_dst.

End Methods.

Section Interpret.
Local Open Scope Q_scope.

(** Line 274: [sol = {name: x[i] for i, name in enumerate(names)}], from
    index [i] on; a later occurrence of a name replaces the earlier entry and
    [x[i]] raises past the end of [x]. *)
Fixpoint build_sol (x : list Q) (i : nat) (names : list string)
    (sol : gmap string Q) : outcome (gmap string Q) :=
  match names with
  | [] => Return sol
  | name :: names' =>
      match x !! i with
      | None => Raise IndexError
      | Some v => build_sol x (S i) names' (<[name := v]> sol)
      end
  end.

(** Lines 276-277: [new_x[i] = sol[var.name]] for the source variables from
    index [i] on; a missing name raises [KeyError]. *)
Fixpoint fill_new_x (sol : gmap string Q) (i : nat) (vars : list Var.t)
    (new_x : list Q) : outcome (list Q) :=
  match vars with
  | [] => Return new_x
  | var :: vars' =>
      match sol !! Var.name var with
      | None => Raise (KeyError (Var.name var))
      | Some v => fill_new_x sol (S i) vars' (<[i := v]> new_x)
      end
  end.

Definition lift {A} (o : outcome A) : M A := λ self, (o, self).

(** [interpret]. *)
Definition interpret (x : list Q) : M (list Q) :=
  dst ← get_dst;
  src ← get_src;
  let names := Var.name <$> QuadraticProgram.variables dst in
  sol ← lift (build_sol x 0 names ∅);
  let new_x := replicate (get_num_vars src) 0 in
  lift (fill_new_x sol 0 (QuadraticProgram.variables src) new_x).

End Interpret.

(** ** Reference functions and predicates used to state the properties *)

Section Reference.
Local Open Scope Q_scope.


(** The local [mode] after lines 159-167, when they do not raise. *)
Definition effective_mode (m : string) (any_float : bool) : string :=
  if decide (m = "auto") then
    if any_float then "continuous" else "integer"
  else m.

Definition slack_kind (mode : string) : VarType :=
  if decide (mode = "integer") then INTEGER else CONTINUOUS.

Definition slack_tag (mode : string) : string :=
  if decide (mode = "integer") then "int" else "continuous".

Definition slack_name (mode name : string) : string :=
  name +:+ _delimiter +:+ slack_tag mode +:+ "_slack".

(** The variables created for one constraint: none, or its slack. *)
Definition slack_vars (mode name : string) (var_ub : Q) : list Var.t :=
  if Qlt_le_dec 0 var_ub
  then [Var.mk (slack_name mode name) (slack_kind mode) 0 var_ub]
  else [].

Definition slack_linear (mode name : string) (var_ub : Q) (sign : Z)
    (linear : gmap string Q) : gmap string Q :=
  if Qlt_le_dec 0 var_ub
  then <[slack_name mode name := inject_Z sign]> linear
  else linear.

Definition add_variables (xs : list Var.t) (d : QuadraticProgram.t) : QuadraticProgram.t :=
  QuadraticProgram.mk (QuadraticProgram.name d) (QuadraticProgram.variables d ++ xs)
    (QuadraticProgram.linear_constraints d) (QuadraticProgram.quadratic_constraints d)
    (QuadraticProgram.objective d).

Definition with_dst (d : QuadraticProgram.t) (self : Converter) : Converter :=
  mkConverter (_src self) (Some d) (_mode self).

(** What the slack injection settles for one inequality: the resolved mode,
    the adjusted right-hand side, the slack upper bound and the sign. *)
Record plan := mkPlan
  { plan_mode : string; plan_rhs : Q; plan_ub : Q; plan_sign : Z }.

Definition make_plan (m : string) (any_float : bool) (sense : Sense)
    (rhs lhs_lb lhs_ub : Q) : plan :=
  let mode := effective_mode m any_float in
  let new_rhs := round_rhs mode sense rhs in
  let b := slack_bound sense new_rhs lhs_lb lhs_ub in
  mkPlan mode new_rhs b.1 b.2.

Definition linear_any_float (owner : QuadraticProgram.t) (c : LinearConstraint.t) : bool :=
  _any_float (linear_to_array owner (LinearConstraint.linear c)).

Definition quadratic_any_float (owner : QuadraticProgram.t) (c : QuadraticConstraint.t) : bool :=
  _any_float (linear_to_array owner (QuadraticConstraint.linear c))
  || _any_float (quadratic_to_array owner (QuadraticConstraint.quadratic c)).

Definition linear_plan (m : string) (owner : QuadraticProgram.t)
    (c : LinearConstraint.t) : plan :=
  let b := linear_bounds owner (LinearConstraint.linear c) in
  make_plan m (linear_any_float owner c) (LinearConstraint.sense c)
    (LinearConstraint.rhs c) b.1 b.2.

Definition quadratic_plan (m : string) (owner : QuadraticProgram.t)
    (c : QuadraticConstraint.t) : plan :=
  let lb := linear_bounds owner (QuadraticConstraint.linear c) in
  let qb := quadratic_bounds owner (QuadraticConstraint.quadratic c) in
  make_plan m (quadratic_any_float owner c) (QuadraticConstraint.sense c)
    (QuadraticConstraint.rhs c) (lb.1 + qb.1) (lb.2 + qb.2).

Definition plan_slacks (name : string) (pl : plan) : list Var.t :=
  slack_vars (plan_mode pl) name (plan_ub pl).

Definition plan_linear (name : string) (pl : plan) (linear : gmap string Q)
  : gmap string Q :=
  slack_linear (plan_mode pl) name (plan_ub pl) (plan_sign pl) linear.

Definition fresh_in (d : QuadraticProgram.t) (xs : list Var.t) : Prop :=
  Forall (λ x, Var.name x ∉ var_names d) xs.

#[global] Instance fresh_in_dec d xs : Decision (fresh_in d xs).
Proof. unfold fresh_in. apply _. Defined.

Definition name_taken (name : string) (pl : plan) : exn :=
  QiskitOptimizationError
    ("Variable name already exists: " +:+ slack_name (plan_mode pl) name).

(** The destination variable made for a source variable by lines 80-90. *)
Definition copied (x : Var.t) : Var.t :=
  match Var.vartype x with
  | BINARY => Var.mk (Var.name x) BINARY 0 1
  | INTEGER => Var.mk (Var.name x) INTEGER (Var.lowerbound x) (Var.upperbound x)
  | CONTINUOUS => Var.mk (Var.name x) CONTINUOUS (Var.lowerbound x) (Var.upperbound x)
  end.

(** The bodies of the two constraint loops of [convert]. *)
Definition linear_step (src : QuadraticProgram.t) (lin_const : LinearConstraint.t)
  : M (gmap string Q * Sense * Q * string) :=
  match LinearConstraint.sense lin_const with
  | EQ => mret (LinearConstraint.linear lin_const, LinearConstraint.sense lin_const,
                LinearConstraint.rhs lin_const, LinearConstraint.name lin_const)
  | LE | GE => _add_slack_var_linear_constraint src lin_const
  end.

Definition quadratic_step (src : QuadraticProgram.t) (quad_const : QuadraticConstraint.t)
  : M (gmap string Q * gmap (string * string) Q * Sense * Q * string) :=
  match QuadraticConstraint.sense quad_const with
  | EQ => mret (QuadraticConstraint.linear quad_const,
                QuadraticConstraint.quadratic quad_const,
                QuadraticConstraint.sense quad_const,
                QuadraticConstraint.rhs quad_const,
                QuadraticConstraint.name quad_const)
  | LE | GE => _add_slack_var_quadratic_constraint src quad_const
  end.

Definition linear_slacks (m : string) (p : QuadraticProgram.t)
    (c : LinearConstraint.t) : list Var.t :=
  match LinearConstraint.sense c with
  | EQ => []
  | LE | GE => plan_slacks (LinearConstraint.name c) (linear_plan m p c)
  end.

Definition quadratic_slacks (m : string) (p : QuadraticProgram.t)
    (c : QuadraticConstraint.t) : list Var.t :=
  match QuadraticConstraint.sense c with
  | EQ => []
  | LE | GE => plan_slacks (QuadraticConstraint.name c) (quadratic_plan m p c)
  end.

Definition rewritten_linear (m : string) (p : QuadraticProgram.t)
    (c : LinearConstraint.t) : LinearConstraint.t :=
  match LinearConstraint.sense c with
  | EQ => c
  | LE | GE =>
      let pl := linear_plan m p c in
      LinearConstraint.mk
        (plan_linear (LinearConstraint.name c) pl (LinearConstraint.linear c))
        EQ (plan_rhs pl) (LinearConstraint.name c)
  end.

Definition rewritten_quadratic (m : string) (p : QuadraticProgram.t)
    (c : QuadraticConstraint.t) : QuadraticConstraint.t :=
  match QuadraticConstraint.sense c with
  | EQ => c
  | LE | GE =>
      let pl := quadratic_plan m p c in
      QuadraticConstraint.mk
        (plan_linear (QuadraticConstraint.name c) pl (QuadraticConstraint.linear c))
        (QuadraticConstraint.quadratic c)
        EQ (plan_rhs pl) (QuadraticConstraint.name c)
  end.

Definition linear_args (c : LinearConstraint.t) : gmap string Q * Sense * Q * string :=
  (LinearConstraint.linear c, LinearConstraint.sense c,
   LinearConstraint.rhs c, LinearConstraint.name c).

Definition quadratic_args (c : QuadraticConstraint.t)
  : gmap string Q * gmap (string * string) Q * Sense * Q * string :=
  (QuadraticConstraint.linear c, QuadraticConstraint.quadratic c,
   QuadraticConstraint.sense c, QuadraticConstraint.rhs c, QuadraticConstraint.name c).

Definition add_linear_constraints (cs : list LinearConstraint.t)
    (d : QuadraticProgram.t) : QuadraticProgram.t :=
  QuadraticProgram.mk (QuadraticProgram.name d) (QuadraticProgram.variables d)
    (QuadraticProgram.linear_constraints d ++ cs)
    (QuadraticProgram.quadratic_constraints d) (QuadraticProgram.objective d).

Definition add_quadratic_constraints (cs : list QuadraticConstraint.t)
    (d : QuadraticProgram.t) : QuadraticProgram.t :=
  QuadraticProgram.mk (QuadraticProgram.name d) (QuadraticProgram.variables d)
    (QuadraticProgram.linear_constraints d)
    (QuadraticProgram.quadratic_constraints d ++ cs) (QuadraticProgram.objective d).

(** The model [convert] returns when it returns: the copied variables, then
    the slack variables of the linear constraints, then those of the
    quadratic constraints; every constraint rewritten in place; the objective
    of the source. *)
Definition converted (m : string) (p : QuadraticProgram.t) : QuadraticProgram.t :=
  QuadraticProgram.mk (QuadraticProgram.name p)
    ((copied <$> QuadraticProgram.variables p)
     ++ (QuadraticProgram.linear_constraints p ≫= linear_slacks m p)
     ++ (QuadraticProgram.quadratic_constraints p ≫= quadratic_slacks m p))
    (rewritten_linear m p <$> QuadraticProgram.linear_constraints p)
    (rewritten_quadratic m p <$> QuadraticProgram.quadratic_constraints p)
    (QuadraticProgram.objective p).

(** Which variables are slack variables of a model's inequality constraints:
    lower bound 0 and the name of a constraint followed by the delimiter, the
    mode tag and [_slack]. *)
Definition is_slack_of (p : QuadraticProgram.t) (s : Var.t) : Prop :=
  Var.lowerbound s = 0
  ∧ ∃ mode name,
      Var.name s = slack_name mode name
      ∧ Var.vartype s = slack_kind mode
      ∧ (name ∈ LinearConstraint.name <$> QuadraticProgram.linear_constraints p
         ∨ name ∈ QuadraticConstraint.name <$> QuadraticProgram.quadratic_constraints p).

(** Running a method body as if [self._mode] were [m]. *)
Definition under_mode {A} (m : string) (body : M A) : M A :=
  λ self,
    let r := body (mkConverter (_src self) (_dst self) m) in
    (r.1, mkConverter (_src r.2) (_dst r.2) (_mode self)).






(** Lines 184 and 239, [var_ub = new_rhs - lhs_lb], and the left-hand side
    [lhs_lb + 1 * var_ub] of the new equality, on binary64 numbers as the
    program has them. *)
Definition binary64_slack_ub (new_rhs lhs_lb : float) : float :=
  PrimFloat.sub new_rhs lhs_lb.

Definition binary64_lhs_at_lb (new_rhs lhs_lb : float) : float :=
  PrimFloat.add lhs_lb (PrimFloat.mul 1 (binary64_slack_ub new_rhs lhs_lb)).

(** The computed slack upper bound of an inequality is not positive: the
    adjusted right-hand side minus the interval lower bound for [LE], the
    interval upper bound minus the adjusted right-hand side for [GE]. *)
Definition redundant (sense : Sense) (adjusted_rhs lhs_lb lhs_ub : Q) : Prop :=
  match sense with
  | LE => adjusted_rhs - lhs_lb <= 0
  | GE => lhs_ub - adjusted_rhs <= 0
  | EQ => True
  end.

(** The error of line 77. *)
Definition unsupported_mode_error (e : exn) : Prop :=
  ∃ m, e = QiskitOptimizationError ("Unsupported mode is selected: " +:+ m).

(** A method body that never leaves with the error of line 77. *)
Definition mode_accepted {A} (body : M A) : Prop :=
  ∀ self e self', body self = (Raise e, self') → ¬ unsupported_mode_error e.

(** The names a constraint mentions are variables of model [d]: what the
    registration of a constraint asks for. *)
Definition linear_keys_declared (d : QuadraticProgram.t) (c : LinearConstraint.t) : Prop :=
  Forall (declared d) (map_to_list (LinearConstraint.linear c)).*1.

Definition quadratic_keys_declared (d : QuadraticProgram.t)
    (c : QuadraticConstraint.t) : Prop :=
  Forall (declared d) (map_to_list (QuadraticConstraint.linear c)).*1
  ∧ Forall (λ k, declared d k.1 ∧ declared d k.2)
      (map_to_list (QuadraticConstraint.quadratic c)).*1.

(** The models [convert] returns on under mode [m]: a known mode; no name
    used twice among the source variables and the slack variables to create;
    under "integer", [any_float] false of every inequality; every constraint
    over declared variables. *)
Definition convertible (m : string) (p : QuadraticProgram.t) : Prop :=
  m ∈ valid_modes
  ∧ NoDup (var_names (converted m p))
  ∧ (m = "integer" →
     Forall (λ c, LinearConstraint.sense c ≠ EQ → linear_any_float p c = false)
       (QuadraticProgram.linear_constraints p)
     ∧ Forall (λ c, QuadraticConstraint.sense c ≠ EQ → quadratic_any_float p c = false)
         (QuadraticProgram.quadratic_constraints p))
  ∧ Forall (linear_keys_declared (converted m p))
      (QuadraticProgram.linear_constraints (converted m p))
  ∧ Forall (quadratic_keys_declared (converted m p))
      (QuadraticProgram.quadratic_constraints (converted m p)).

End Reference.

(** ** Concrete models used to exercise the theorems *)

Section Examples.
Local Open Scope Q_scope.

Definition empty_objective : QuadraticObjective.t :=
  QuadraticObjective.mk 0 ∅ ∅ MINIMIZE.

(** One integer variable [x] in [0, 10] and the constraint [x >= 3.5]. *)
Definition ex_ge : QuadraticProgram.t :=
  QuadraticProgram.mk "ge" [Var.mk "x" INTEGER 0 10]
    [LinearConstraint.mk {["x" := 1]} GE (7 # 2) "c0"] [] empty_objective.

(** One integer variable [x] in [0, 10] and the constraint [x <= 3.5]. *)
Definition ex_le : QuadraticProgram.t :=
  QuadraticProgram.mk "le" [Var.mk "x" INTEGER 0 10]
    [LinearConstraint.mk {["x" := 1]} LE (7 # 2) "c0"] [] empty_objective.

(** A binary variable fixed to 1 through its bounds, no constraint. *)
Definition ex_fixed_binary : QuadraticProgram.t :=
  QuadraticProgram.mk "fixed" [Var.mk "b" BINARY 1 1] [] [] empty_objective.

(** One continuous variable [y] in [0, 10] and the constraint [0.5 y <= 3]. *)
Definition ex_half : QuadraticProgram.t :=
  QuadraticProgram.mk "half" [Var.mk "y" CONTINUOUS 0 10]
    [LinearConstraint.mk {["y" := 1 # 2]} LE 3 "c0"] [] empty_objective.

(** One continuous variable [x] in [0.5, 3] and the constraint [x <= 5]. *)
Definition ex_fractional_bound : QuadraticProgram.t :=
  QuadraticProgram.mk "frac" [Var.mk "x" CONTINUOUS (1 # 2) 3]
    [LinearConstraint.mk {["x" := 1]} LE 5 "c0"] [] empty_objective.

(** One integer variable [x] in [0, 3], the constraint [x >= 3] and the
    quadratic constraint [x * x <= 0]: both hold only at an end of the
    interval of their left-hand side. *)
Definition ex_redundant : QuadraticProgram.t :=
  QuadraticProgram.mk "red" [Var.mk "x" INTEGER 0 3]
    [LinearConstraint.mk {["x" := 1]} GE 3 "c0"]
    [QuadraticConstraint.mk ∅ {[("x", "x")%core := 1]} LE 0 "q0"] empty_objective.

(** The destination model of [ex_half] once its variable is copied. *)
Definition ex_half_copied : QuadraticProgram.t :=
  add_variables [Var.mk "y" CONTINUOUS 0 10] (new_program "half").

(** As [ex_le] with rhs 5, and a second variable that bears the name of the
    slack the constraint needs. *)
Definition ex_clash : QuadraticProgram.t :=
  QuadraticProgram.mk "clash"
    [Var.mk "x" INTEGER 0 10; Var.mk "c0@int_slack" INTEGER 0 1]
    [LinearConstraint.mk {["x" := 1]} LE 5 "c0"] [] empty_objective.

(** One integer variable [x] in [0, 2] and the quadratic constraint
    [0.5 x x <= 3]. *)
Definition ex_half_square : QuadraticProgram.t :=
  QuadraticProgram.mk "square" [Var.mk "x" INTEGER 0 2] []
    [QuadraticConstraint.mk ∅ {[("x", "x")%core := 1 # 2]} LE 3 "q0"] empty_objective.

End Examples.

(** ** Reasoning about method bodies *)

Section MonadLemmas.
Context {A B : Type}.

Lemma bind_unfold (m : M A) (f : A → M B) self :
  (m ≫= f) self = match m self with
                  | (Return a, self') => f a self'
                  | (Raise e, self') => (Raise e, self')
                  end.
Proof. reflexivity. Qed.

Lemma bind_Return (m : M A) (f : A → M B) self b self'' :
  (m ≫= f) self = (Return b, self'') ↔
  ∃ a self', m self = (Return a, self') ∧ f a self' = (Return b, self'').
Proof.
  rewrite bind_unfold. destruct (m self) as [[a|e] self']; split.
  - eauto.
  - intros (a' & s & [= <- <-] & H). exact H.
  - discriminate.
  - intros (a' & s & [=] & _).
Qed.

Lemma bind_Raise (m : M A) (f : A → M B) self e self'' :
  (m ≫= f) self = (Raise e, self'') ↔
  m self = (Raise e, self'') ∨
  ∃ a self', m self = (Return a, self') ∧ f a self' = (Raise e, self'').
Proof.
  rewrite bind_unfold. destruct (m self) as [[a|e'] self']; split.
  - eauto.
  - intros [[=] | (a' & s & [= <- <-] & H)]. exact H.
  - intros [= <- <-]. eauto.
  - intros [[= <- <-] | (a' & s & [=] & _)]. reflexivity.
Qed.

End MonadLemmas.

Section Stable.
Context (P : Converter → Prop).






End Stable.

(** ** What each step of the slack injection computes *)

Section SlackSteps.
Local Open Scope Q_scope.

Lemma add_variables_nil d : add_variables [] d = d.
Proof. destruct d. unfold add_variables. simpl. by rewrite app_nil_r. Qed.

Lemma add_variables_app xs ys d :
  add_variables ys (add_variables xs d) = add_variables (xs ++ ys) d.
Proof. unfold add_variables. simpl. by rewrite app_assoc. Qed.

Lemma with_dst_id self d : _dst self = Some d → with_dst d self = self.
Proof. destruct self. simpl. intros ->. reflexivity. Qed.

Lemma resolve_mode_eq name any_float self :
  resolve_mode name any_float self =
  if decide (_mode self = "integer" ∧ any_float = true)
  then (Raise (QiskitOptimizationError (float_coefficients_msg name)), self)
  else (Return (effective_mode (_mode self) any_float), self).
Proof.
  unfold resolve_mode, effective_mode. rewrite bind_unfold. simpl.
  destruct (decide (_mode self = "integer")) as [Hi|Hi].
  - destruct any_float.
    + rewrite decide_True by done. reflexivity.
    + rewrite (decide_False (P := _ ∧ _)) by (intros [_ [=]]).
      rewrite decide_False by (rewrite Hi; discriminate). reflexivity.
  - rewrite (decide_False (P := _ ∧ _)) by (intros [? _]; done).
    destruct (decide (_mode self = "auto")); reflexivity.
Qed.

Lemma effective_mode_valid m any_float :
  m ∈ valid_modes →
  effective_mode m any_float = "integer" ∨ effective_mode m any_float = "continuous".
Proof.
  unfold valid_modes, effective_mode. rewrite !elem_of_cons, elem_of_nil.
  intros [->|[->|[->|Hf]]]; simpl; [by left|by right| |done].
  destruct any_float; [by right|by left].
Qed.

Lemma on_dst_add_variable x self d :
  _dst self = Some d →
  on_dst (_add_variable x) self =
  if decide (Var.name x ∈ var_names d)
  then (Raise (QiskitOptimizationError ("Variable name already exists: " +:+ Var.name x)), self)
  else (Return tt, with_dst (add_variables [x] d) self).
Proof.
  intros Hd. unfold on_dst, _add_variable. rewrite Hd.
  destruct (decide (Var.name x ∈ var_names d)); reflexivity.
Qed.

(** Lines 192-201 under a resolved mode: the slack variable is appended to
    the destination model unless its name is taken there. *)
Lemma add_slack_eq mode name var_ub sign linear self d :
  _dst self = Some d →
  mode = "integer" ∨ mode = "continuous" →
  add_slack mode name var_ub sign linear self =
  if decide (Forall (λ x, Var.name x ∉ var_names d) (slack_vars mode name var_ub))
  then (Return (slack_linear mode name var_ub sign linear),
        with_dst (add_variables (slack_vars mode name var_ub) d) self)
  else (Raise (QiskitOptimizationError
                 ("Variable name already exists: " +:+ slack_name mode name)), self).
Proof.
  intros Hd Hmode. unfold add_slack, slack_vars, slack_linear.
  destruct (Qlt_le_dec 0 var_ub) as [Hpos|Hle].
  - assert (mode_name mode = Some (slack_tag mode)) as ->.
    { unfold mode_name, slack_tag. destruct Hmode as [->| ->]; reflexivity. }
    fold (slack_name mode name).
    assert (∀ k : M (gmap string Q),
      ((if decide (mode = "integer")
        then on_dst (integer_var (slack_name mode name) 0 var_ub)
        else if decide (mode = "continuous")
             then on_dst (continuous_var (slack_name mode name) 0 var_ub)
             else mret tt) ≫= λ _, k) self =
      (on_dst (_add_variable (Var.mk (slack_name mode name) (slack_kind mode) 0 var_ub))
         ≫= λ _, k) self) as ->.
    { intros k. unfold slack_kind. destruct Hmode as [->| ->]; reflexivity. }
    rewrite bind_unfold, (on_dst_add_variable _ _ d Hd). simpl.
    destruct (decide (slack_name mode name ∈ var_names d)) as [Hin|Hnin].
    + rewrite decide_False; [reflexivity|].
      rewrite Forall_singleton. simpl. tauto.
    + rewrite decide_True; [reflexivity|]. by rewrite Forall_singleton.
  - rewrite decide_True by constructor.
    rewrite add_variables_nil, (with_dst_id _ _ Hd). reflexivity.
Qed.

End SlackSteps.

(** ** The rewrite of one constraint, as a function of the source model *)

Section Plans.
Local Open Scope Q_scope.

Lemma _add_slack_var_linear_constraint_eq owner c self d :
  _dst self = Some d →
  _mode self ∈ valid_modes →
  let name := LinearConstraint.name c in
  let pl := linear_plan (_mode self) owner c in
  _add_slack_var_linear_constraint owner c self =
  if decide (_mode self = "integer" ∧ linear_any_float owner c = true)
  then (Raise (QiskitOptimizationError (float_coefficients_msg name)), self)
  else if decide (fresh_in d (plan_slacks name pl))
  then (Return (plan_linear name pl (LinearConstraint.linear c), EQ, plan_rhs pl, name),
        with_dst (add_variables (plan_slacks name pl) d) self)
  else (Raise (name_taken name pl), self).
Proof.
  intros Hd Hm name pl.
  unfold _add_slack_var_linear_constraint.
  rewrite bind_unfold. unfold get_dst at 1. rewrite Hd.
  rewrite bind_unfold, resolve_mode_eq.
  fold (linear_any_float owner c).
  destruct (decide (_mode self = "integer" ∧ linear_any_float owner c = true));
    [reflexivity|].
  pose proof (effective_mode_valid _ (linear_any_float owner c) Hm) as Hv.
  unfold pl, plan_linear, plan_slacks, linear_plan, make_plan, name. simpl.
  destruct (slack_bound _ _ _ _) as [var_ub sign]. simpl.
  rewrite bind_unfold, (add_slack_eq _ _ _ _ _ _ d Hd Hv).
  unfold fresh_in.
  destruct (decide (Forall _ _)); reflexivity.
Qed.

Lemma _add_slack_var_quadratic_constraint_eq owner c self d :
  _dst self = Some d →
  _mode self ∈ valid_modes →
  let name := QuadraticConstraint.name c in
  let pl := quadratic_plan (_mode self) owner c in
  _add_slack_var_quadratic_constraint owner c self =
  if decide (_mode self = "integer" ∧ quadratic_any_float owner c = true)
  then (Raise (QiskitOptimizationError (float_coefficients_msg name)), self)
  else if decide (fresh_in d (plan_slacks name pl))
  then (Return (plan_linear name pl (QuadraticConstraint.linear c),
                QuadraticConstraint.quadratic c, EQ, plan_rhs pl, name),
        with_dst (add_variables (plan_slacks name pl) d) self)
  else (Raise (name_taken name pl), self).
Proof.
  intros Hd Hm name pl.
  unfold _add_slack_var_quadratic_constraint.
  rewrite bind_unfold. unfold get_dst at 1. rewrite Hd.
  rewrite bind_unfold, resolve_mode_eq.
  fold (quadratic_any_float owner c).
  destruct (decide (_mode self = "integer" ∧ quadratic_any_float owner c = true));
    [reflexivity|].
  pose proof (effective_mode_valid _ (quadratic_any_float owner c) Hm) as Hv.
  unfold pl, plan_linear, plan_slacks, quadratic_plan, make_plan, name. simpl.
  destruct (slack_bound _ _ _ _) as [var_ub sign]. simpl.
  rewrite bind_unfold, (add_slack_eq _ _ _ _ _ _ d Hd Hv).
  unfold fresh_in.
  destruct (decide (Forall _ _)); reflexivity.
Qed.

End Plans.

(** ** The destination model as a function of the source model *)

Section ConvertResult.
Local Open Scope Q_scope.

Lemma var_names_add_variables xs d :
  var_names (add_variables xs d) = var_names d ++ (Var.name <$> xs).
Proof. unfold var_names, add_variables. simpl. by rewrite fmap_app. Qed.

Lemma fresh_in_NoDup d xs :
  fresh_in d xs → NoDup (Var.name <$> xs) →
  NoDup (var_names d) → NoDup (var_names (add_variables xs d)).
Proof.
  intros Hf Hxs Hd. rewrite var_names_add_variables.
  apply NoDup_app. split_and!; [done| |done].
  intros n Hn Hn'. apply list_elem_of_fmap in Hn' as (x & -> & Hx).
  unfold fresh_in in Hf. rewrite Forall_forall in Hf. by apply (Hf x).
Qed.

Lemma slack_vars_NoDup mode name var_ub :
  NoDup (Var.name <$> slack_vars mode name var_ub).
Proof.
  unfold slack_vars. destruct (Qlt_le_dec 0 var_ub); simpl.
  - apply NoDup_singleton.
  - apply NoDup_nil_2.
Qed.

Lemma copy_variable_eq x : copy_variable x = on_dst (_add_variable (copied x)).
Proof. unfold copy_variable, copied. destruct (Var.vartype x); reflexivity. Qed.

Lemma copy_loop_Return xs self d self' :
  _dst self = Some d →
  forM_ copy_variable xs self = (Return tt, self') →
  self' = with_dst (add_variables (copied <$> xs) d) self
  ∧ (NoDup (var_names d) → NoDup (var_names (add_variables (copied <$> xs) d))).
Proof.
  revert self d. induction xs as [|x xs IH]; intros self d Hd; simpl.
  - intros [= <-]. rewrite add_variables_nil, (with_dst_id _ _ Hd). done.
  - intros H. apply bind_Return in H as (u & s1 & H1 & H2).
    rewrite copy_variable_eq, (on_dst_add_variable _ _ d Hd) in H1.
    destruct (decide (Var.name (copied x) ∈ var_names d)) as [|Hfresh]; [done|].
    injection H1 as _ <-.
    apply (IH _ (add_variables [copied x] d)) in H2 as [-> Hnd]; [|done].
    rewrite add_variables_app in *. simpl in *. split; [done|].
    intros Hd'. apply Hnd, fresh_in_NoDup; [|apply NoDup_singleton|done].
    by apply Forall_singleton.
Qed.

Lemma linear_ineq m p c :
  LinearConstraint.sense c ≠ EQ →
  linear_args (rewritten_linear m p c) =
    (plan_linear (LinearConstraint.name c) (linear_plan m p c) (LinearConstraint.linear c),
     EQ, plan_rhs (linear_plan m p c), LinearConstraint.name c)
  ∧ linear_slacks m p c = plan_slacks (LinearConstraint.name c) (linear_plan m p c).
Proof.
  unfold rewritten_linear, linear_slacks.
  destruct (LinearConstraint.sense c); done.
Qed.

Lemma quadratic_ineq m p c :
  QuadraticConstraint.sense c ≠ EQ →
  quadratic_args (rewritten_quadratic m p c) =
    (plan_linear (QuadraticConstraint.name c) (quadratic_plan m p c)
       (QuadraticConstraint.linear c),
     QuadraticConstraint.quadratic c, EQ, plan_rhs (quadratic_plan m p c),
     QuadraticConstraint.name c)
  ∧ quadratic_slacks m p c
    = plan_slacks (QuadraticConstraint.name c) (quadratic_plan m p c).
Proof.
  unfold rewritten_quadratic, quadratic_slacks.
  destruct (QuadraticConstraint.sense c); done.
Qed.

Lemma linear_step_Return p c self d m r self' :
  _dst self = Some d →
  _mode self = m →
  m ∈ valid_modes →
  linear_step p c self = (Return r, self') →
  r = linear_args (rewritten_linear m p c)
  ∧ self' = with_dst (add_variables (linear_slacks m p c) d) self
  ∧ fresh_in d (linear_slacks m p c)
  ∧ (LinearConstraint.sense c ≠ EQ → m = "integer" → linear_any_float p c = false).
Proof.
  intros Hd <- Hm H. set (m := _mode self) in *. unfold linear_step in H.
  assert ((LinearConstraint.sense c = EQ ∧ (Return r, self') = (Return (linear_args c), self))
          ∨ (LinearConstraint.sense c ≠ EQ ∧
             _add_slack_var_linear_constraint p c self = (Return r, self')))
    as [[He H']|[Hne H']].
  { destruct (LinearConstraint.sense c) eqn:He;
      [right; by split|right; by split|left; split; [done|]].
    rewrite <- H. unfold linear_args. rewrite He. reflexivity. }
  - injection H' as -> ->. unfold rewritten_linear, linear_slacks. rewrite He.
    rewrite add_variables_nil, (with_dst_id _ _ Hd).
    split_and!; [done|done|constructor|done].
  - clear H. rewrite (_add_slack_var_linear_constraint_eq _ _ _ d Hd Hm) in H'.
    fold m in H'.
    destruct (linear_ineq m p c Hne) as [-> ->].
    destruct (decide (m = "integer" ∧ linear_any_float p c = true)) as [|Hn]; [done|].
    destruct (decide (fresh_in d _)) as [Hf|]; [|done].
    injection H' as <- <-. split_and!; [done..|].
    intros _ Hi. destruct (linear_any_float p c); [|done]. by destruct Hn.
Qed.

Lemma quadratic_step_Return p c self d m r self' :
  _dst self = Some d →
  _mode self = m →
  m ∈ valid_modes →
  quadratic_step p c self = (Return r, self') →
  r = quadratic_args (rewritten_quadratic m p c)
  ∧ self' = with_dst (add_variables (quadratic_slacks m p c) d) self
  ∧ fresh_in d (quadratic_slacks m p c)
  ∧ (QuadraticConstraint.sense c ≠ EQ → m = "integer" → quadratic_any_float p c = false).
Proof.
  intros Hd <- Hm H. set (m := _mode self) in *. unfold quadratic_step in H.
  assert ((QuadraticConstraint.sense c = EQ ∧ (Return r, self') = (Return (quadratic_args c), self))
          ∨ (QuadraticConstraint.sense c ≠ EQ ∧
             _add_slack_var_quadratic_constraint p c self = (Return r, self')))
    as [[He H']|[Hne H']].
  { destruct (QuadraticConstraint.sense c) eqn:He;
      [right; by split|right; by split|left; split; [done|]].
    rewrite <- H. unfold quadratic_args. rewrite He. reflexivity. }
  - injection H' as -> ->. unfold rewritten_quadratic, quadratic_slacks. rewrite He.
    rewrite add_variables_nil, (with_dst_id _ _ Hd).
    split_and!; [done|done|constructor|done].
  - clear H. rewrite (_add_slack_var_quadratic_constraint_eq _ _ _ d Hd Hm) in H'.
    fold m in H'.
    destruct (quadratic_ineq m p c Hne) as [-> ->].
    destruct (decide (m = "integer" ∧ quadratic_any_float p c = true)) as [|Hn]; [done|].
    destruct (decide (fresh_in d _)) as [Hf|]; [|done].
    injection H' as <- <-. split_and!; [done..|].
    intros _ Hi. destruct (quadratic_any_float p c); [|done]. by destruct Hn.
Qed.

End ConvertResult.

Section ConvertLoops.
Local Open Scope Q_scope.

Lemma linear_loop_Return p m cs : ∀ self d res self',
  _dst self = Some d →
  _mode self = m →
  m ∈ valid_modes →
  mapM (linear_step p) cs self = (Return res, self') →
  res = (linear_args ∘ rewritten_linear m p) <$> cs
  ∧ self' = with_dst (add_variables (cs ≫= linear_slacks m p) d) self
  ∧ (NoDup (var_names d) →
     NoDup (var_names (add_variables (cs ≫= linear_slacks m p) d)))
  ∧ (m = "integer" →
     Forall (λ c, LinearConstraint.sense c ≠ EQ → linear_any_float p c = false) cs).
Proof.
  induction cs as [|c cs IH]; intros self d res self' Hd Hmode Hm H.
  - injection H as <- <-. simpl.
    rewrite add_variables_nil, (with_dst_id _ _ Hd). split_and!; try done.
  - simpl in H. apply bind_Return in H as (b & s1 & H1 & H).
    apply bind_Return in H as (bs & s2 & H2 & H). injection H as <- <-.
    apply (linear_step_Return _ _ _ d m) in H1 as (-> & -> & Hf & Hi); [|done..].
    apply (IH _ (add_variables (linear_slacks m p c) d)) in H2
      as (-> & -> & Hnd & Hi'); [|done..].
    simpl in *. rewrite add_variables_app in *.
    split_and!; try done.
    + intros Hd'. apply Hnd, fresh_in_NoDup; [done| |done].
      unfold linear_slacks. destruct (LinearConstraint.sense c);
        try apply slack_vars_NoDup. apply NoDup_nil_2.
    + intros Hint. constructor; [|by apply Hi']. intros Hne. by apply Hi.
Qed.

Lemma quadratic_loop_Return p m cs : ∀ self d res self',
  _dst self = Some d →
  _mode self = m →
  m ∈ valid_modes →
  mapM (quadratic_step p) cs self = (Return res, self') →
  res = (quadratic_args ∘ rewritten_quadratic m p) <$> cs
  ∧ self' = with_dst (add_variables (cs ≫= quadratic_slacks m p) d) self
  ∧ (NoDup (var_names d) →
     NoDup (var_names (add_variables (cs ≫= quadratic_slacks m p) d)))
  ∧ (m = "integer" →
     Forall (λ c, QuadraticConstraint.sense c ≠ EQ → quadratic_any_float p c = false) cs).
Proof.
  induction cs as [|c cs IH]; intros self d res self' Hd Hmode Hm H.
  - injection H as <- <-. simpl.
    rewrite add_variables_nil, (with_dst_id _ _ Hd). split_and!; try done.
  - simpl in H. apply bind_Return in H as (b & s1 & H1 & H).
    apply bind_Return in H as (bs & s2 & H2 & H). injection H as <- <-.
    apply (quadratic_step_Return _ _ _ d m) in H1 as (-> & -> & Hf & Hi); [|done..].
    apply (IH _ (add_variables (quadratic_slacks m p c) d)) in H2
      as (-> & -> & Hnd & Hi'); [|done..].
    simpl in *. rewrite add_variables_app in *.
    split_and!; try done.
    + intros Hd'. apply Hnd, fresh_in_NoDup; [done| |done].
      unfold quadratic_slacks. destruct (QuadraticConstraint.sense c);
        try apply slack_vars_NoDup. apply NoDup_nil_2.
    + intros Hint. constructor; [|by apply Hi']. intros Hne. by apply Hi.
Qed.

Lemma add_linear_constraints_nil d : add_linear_constraints [] d = d.
Proof. destruct d. unfold add_linear_constraints. simpl. by rewrite app_nil_r. Qed.

Lemma add_quadratic_constraints_nil d : add_quadratic_constraints [] d = d.
Proof. destruct d. unfold add_quadratic_constraints. simpl. by rewrite app_nil_r. Qed.

Lemma register_linear_Return cs : ∀ self d self',
  _dst self = Some d →
  forM_ (λ '(l, s, r, n), on_dst (linear_constraint l s r n)) (linear_args <$> cs) self
    = (Return tt, self') →
  self' = with_dst (add_linear_constraints cs d) self.
Proof.
  induction cs as [|c cs IH]; intros self d self' Hd H.
  - injection H as <-. by rewrite add_linear_constraints_nil, (with_dst_id _ _ Hd).
  - simpl in H. apply bind_Return in H as (u & s1 & H1 & H2).
    unfold on_dst, linear_constraint in H1. rewrite Hd in H1.
    destruct (decide (Forall _ _)); [|done]. injection H1 as _ <-.
    eapply IH in H2; [|reflexivity]. subst self'.
    unfold add_linear_constraints, with_dst. simpl. rewrite <- app_assoc.
    destruct c. reflexivity.
Qed.

Lemma register_quadratic_Return cs : ∀ self d self',
  _dst self = Some d →
  forM_ (λ '(l, q, s, r, n), on_dst (quadratic_constraint l q s r n))
    (quadratic_args <$> cs) self = (Return tt, self') →
  self' = with_dst (add_quadratic_constraints cs d) self.
Proof.
  induction cs as [|c cs IH]; intros self d self' Hd H.
  - injection H as <-. by rewrite add_quadratic_constraints_nil, (with_dst_id _ _ Hd).
  - simpl in H. apply bind_Return in H as (u & s1 & H1 & H2).
    unfold on_dst, quadratic_constraint in H1. rewrite Hd in H1.
    destruct (decide (_ ∧ _)); [|done]. injection H1 as _ <-.
    eapply IH in H2; [|reflexivity]. subst self'.
    unfold add_quadratic_constraints, with_dst. simpl. rewrite <- app_assoc.
    destruct c. reflexivity.
Qed.

Lemma convert_unfold problem :
  convert problem =
  (set_src problem;;
   set_dst (new_program (QuadraticProgram.name problem));;
   mode ← get_mode;
   if decide (mode ∉ valid_modes) then
     raise (QiskitOptimizationError ("Unsupported mode is selected: " +:+ mode))
   else
   forM_ copy_variable (QuadraticProgram.variables problem);;
   new_linear_constraints ←
     mapM (linear_step problem) (QuadraticProgram.linear_constraints problem);
   new_quadratic_constraints ←
     mapM (quadratic_step problem) (QuadraticProgram.quadratic_constraints problem);
   on_dst (λ d, Return (set_objective
                          (QuadraticObjective.sense (QuadraticProgram.objective problem))
                          (QuadraticObjective.constant (QuadraticProgram.objective problem))
                          (QuadraticObjective.linear (QuadraticProgram.objective problem))
                          (QuadraticObjective.quadratic (QuadraticProgram.objective problem))
                          d));;
   forM_ (λ '(l, s, r, n), on_dst (linear_constraint l s r n)) new_linear_constraints;;
   forM_ (λ '(l, q, s, r, n), on_dst (quadratic_constraint l q s r n))
     new_quadratic_constraints;;
   get_dst).
Proof.
  unfold convert, minimize, maximize.
  destruct (QuadraticObjective.sense (QuadraticProgram.objective problem)); reflexivity.
Qed.


Lemma convert_Return p self d self' :
  convert p self = (Return d, self') →
  _mode self ∈ valid_modes
  ∧ d = converted (_mode self) p
  ∧ self' = mkConverter (Some p) (Some d) (_mode self)
  ∧ NoDup (var_names d)
  ∧ (_mode self = "integer" →
     Forall (λ c, LinearConstraint.sense c ≠ EQ → linear_any_float p c = false)
       (QuadraticProgram.linear_constraints p)
     ∧ Forall (λ c, QuadraticConstraint.sense c ≠ EQ → quadratic_any_float p c = false)
         (QuadraticProgram.quadratic_constraints p)).
Proof.
  rewrite convert_unfold. intros H.
  apply bind_Return in H as (u1 & s1 & [= _ <-] & H).
  apply bind_Return in H as (u2 & s2 & [= _ <-] & H).
  apply bind_Return in H as (mode' & s3 & [= <- <-] & H). simpl in H.
  set (m := _mode self) in *.
  destruct (decide (m ∉ valid_modes)) as [|Hm]; [done|].
  apply dec_stable in Hm.
  apply bind_Return in H as ([] & s4 & H4 & H).
  apply (copy_loop_Return _ _ (new_program (QuadraticProgram.name p))) in H4
    as [-> Hnd1]; [|done].
  apply bind_Return in H as (lcs & s5 & H5 & H).
  match type of H5 with mapM _ _ ?s = _ =>
    match eval hnf in (_dst s) with Some ?d0 =>
      apply (linear_loop_Return p m _ s d0) in H5 as (-> & -> & Hnd2 & Hi1);
        [|reflexivity|reflexivity|done]
    end end.
  apply bind_Return in H as (qcs & s6 & H6 & H).
  match type of H6 with mapM _ _ ?s = _ =>
    match eval hnf in (_dst s) with Some ?d0 =>
      apply (quadratic_loop_Return p m _ s d0) in H6 as (-> & -> & Hnd3 & Hi2);
        [|reflexivity|reflexivity|done]
    end end.
  apply bind_Return in H as (u4 & s7 & [= _ <-] & H).
  apply bind_Return in H as ([] & s8 & H8 & H).
  rewrite list_fmap_compose in H8.
  match type of H8 with forM_ _ _ ?s = _ =>
    match eval hnf in (_dst s) with Some ?d0 =>
      apply (register_linear_Return _ s d0) in H8; [|reflexivity]
    end end. subst s8.
  apply bind_Return in H as ([] & s9 & H9 & H).
  rewrite list_fmap_compose in H9.
  match type of H9 with forM_ _ _ ?s = _ =>
    match eval hnf in (_dst s) with Some ?d0 =>
      apply (register_quadratic_Return _ s d0) in H9; [|reflexivity]
    end end. subst s9.
  injection H as <- <-.
  assert (∀ xs ys zs, add_variables zs (add_variables ys (add_variables xs
            (new_program (QuadraticProgram.name p)))) =
          QuadraticProgram.mk (QuadraticProgram.name p) (xs ++ ys ++ zs) [] []
            (QuadraticObjective.mk 0%Q ∅ ∅ MINIMIZE)) as Hvars.
  { intros. unfold add_variables, new_program. simpl. by rewrite <- app_assoc. }
  rewrite Hvars in *.
  split_and!; [done| | |by apply Hnd3, Hnd2, Hnd1, NoDup_nil_2|by auto].
  - unfold converted, add_quadratic_constraints, add_linear_constraints, set_objective.
    simpl. destruct (QuadraticProgram.objective p). reflexivity.
  - unfold with_dst. simpl. reflexivity.
Qed.

End ConvertLoops.

(** ** The two loops of [interpret] *)

Section InterpretLoops.
Local Open Scope Q_scope.

Lemma build_sol_Return x names : ∀ i sol,
  NoDup names →
  (i + length names ≤ length x)%nat →
  ∃ sol', build_sol x i names sol = Return sol'
          ∧ (∀ j n, names !! j = Some n → sol' !! n = x !! (i + j)%nat)
          ∧ (∀ n, n ∉ names → sol' !! n = sol !! n).
Proof.
  induction names as [|n0 names IH]; intros i sol Hnd Hlen; simpl in *.
  - exists sol. split_and!; [done| |done]. intros j n. by rewrite lookup_nil.
  - apply NoDup_cons in Hnd as [Hn0 Hnd].
    destruct (lookup_lt_is_Some_2 x i) as [v Hv]; [lia|]. rewrite Hv.
    destruct (IH (S i) (<[n0:=v]> sol) Hnd) as (sol' & -> & Hin & Hout); [lia|].
    exists sol'. split_and!; [done| |].
    + intros [|j] n Hj; simpl in Hj.
      * injection Hj as <-. rewrite (Hout _ Hn0), lookup_insert_eq, Nat.add_0_r. done.
      * rewrite (Hin _ _ Hj). f_equal. lia.
    + intros n Hn. apply not_elem_of_cons in Hn as [Hne Hn].
      rewrite (Hout _ Hn). by rewrite lookup_insert_ne.
Qed.

Lemma fill_new_x_Return sol vars : ∀ i new_x vals,
  Forall2 (λ v q, sol !! Var.name v = Some q) vars vals →
  (i + length vars ≤ length new_x)%nat →
  fill_new_x sol i vars new_x
  = Return (take i new_x ++ vals ++ drop (i + length vars) new_x).
Proof.
  induction vars as [|v vars IH]; intros i new_x vals Hv Hlen.
  - apply Forall2_nil_inv_l in Hv as ->. simpl.
    by rewrite Nat.add_0_r, take_drop.
  - apply Forall2_cons_inv_l in Hv as (q & vals' & Hq & Hv & ->). simpl in *.
    rewrite Hq, (IH (S i) _ vals' Hv) by (rewrite length_insert; lia).
    f_equal.
    assert (is_Some (new_x !! i)) as [y Hy] by (apply lookup_lt_is_Some_2; lia).
    rewrite (take_S_r _ _ q) by (apply list_lookup_insert_eq; lia).
    rewrite take_insert_ge by lia.
    rewrite drop_insert_lt by lia.
    rewrite <- app_assoc. simpl. by rewrite Nat.add_succ_r.
Qed.

Lemma copied_name x : Var.name (copied x) = Var.name x.
Proof. unfold copied. destruct (Var.vartype x); reflexivity. Qed.

Lemma copied_vartype x : Var.vartype (copied x) = Var.vartype x.
Proof. unfold copied. destruct (Var.vartype x); reflexivity. Qed.

Lemma copied_not_binary x : Var.vartype x ≠ BINARY → copied x = x.
Proof. unfold copied. destruct x as [n [] l u]; simpl; done. Qed.

Lemma copied_binary x :
  Var.vartype x = BINARY → Var.lowerbound (copied x) = 0 ∧ Var.upperbound (copied x) = 1.
Proof. unfold copied. intros ->. done. Qed.

End InterpretLoops.

(** ** Properties of [convert] and [interpret] *)

Section Properties.
Local Open Scope Q_scope.

(** C1. Equality-only output: in the model returned by [convert] every
    linear and every quadratic constraint has sense [EQ]; the i-th constraint
    of the result comes from the i-th constraint of the source, keeps its
    name, and is the source constraint itself when that one is an equality. *)
Theorem convert_equality_only p self d self' :
  convert p self = (Return d, self') →
  Forall (λ c, LinearConstraint.sense c = EQ) (QuadraticProgram.linear_constraints d)
  ∧ Forall (λ c, QuadraticConstraint.sense c = EQ) (QuadraticProgram.quadratic_constraints d)
  ∧ Forall2 (λ c c', LinearConstraint.name c' = LinearConstraint.name c
                     ∧ (LinearConstraint.sense c = EQ → c' = c))
      (QuadraticProgram.linear_constraints p) (QuadraticProgram.linear_constraints d)
  ∧ Forall2 (λ c c', QuadraticConstraint.name c' = QuadraticConstraint.name c
                     ∧ (QuadraticConstraint.sense c = EQ → c' = c))
      (QuadraticProgram.quadratic_constraints p) (QuadraticProgram.quadratic_constraints d).
Proof.
  intros H. apply convert_Return in H as (_ & -> & _). unfold converted. simpl.
  split_and!.
  - apply Forall_fmap, Forall_true. intros c. unfold rewritten_linear. simpl.
    destruct (LinearConstraint.sense c) eqn:E; simpl; done.
  - apply Forall_fmap, Forall_true. intros c. unfold rewritten_quadratic. simpl.
    destruct (QuadraticConstraint.sense c) eqn:E; simpl; done.
  - apply Forall2_fmap_r, Forall_Forall2_diag, Forall_true. intros c.
    unfold compose, rewritten_linear.
    destruct (LinearConstraint.sense c); simpl; (split; [reflexivity|by intros ?]).
  - apply Forall2_fmap_r, Forall_Forall2_diag, Forall_true. intros c.
    unfold compose, rewritten_quadratic.
    destruct (QuadraticConstraint.sense c); simpl; (split; [reflexivity|by intros ?]).
Qed.

Lemma convert_equality_only_witness :
  Forall (λ c, LinearConstraint.sense c = EQ)
    (QuadraticProgram.linear_constraints (converted "auto" ex_redundant))
  ∧ Forall (λ c, QuadraticConstraint.sense c = EQ)
      (QuadraticProgram.quadratic_constraints (converted "auto" ex_redundant))
  ∧ Forall2 (λ c c', LinearConstraint.name c' = LinearConstraint.name c
                     ∧ (LinearConstraint.sense c = EQ → c' = c))
      (QuadraticProgram.linear_constraints ex_redundant)
      (QuadraticProgram.linear_constraints (converted "auto" ex_redundant))
  ∧ Forall2 (λ c c', QuadraticConstraint.name c' = QuadraticConstraint.name c
                     ∧ (QuadraticConstraint.sense c = EQ → c' = c))
      (QuadraticProgram.quadratic_constraints ex_redundant)
      (QuadraticProgram.quadratic_constraints (converted "auto" ex_redundant)).
Proof.
  apply (convert_equality_only ex_redundant (__init__ "auto") _
           (mkConverter (Some ex_redundant) (Some (converted "auto" ex_redundant)) "auto")).
  vm_compute. reflexivity.
Defined.

Lemma converted_variables_lookup m p i v :
  QuadraticProgram.variables p !! i = Some v →
  QuadraticProgram.variables (converted m p) !! i = Some (copied v).
Proof.
  intros H. unfold converted. simpl.
  apply lookup_app_l_Some. by rewrite list_lookup_fmap, H.
Qed.

(** C2. Round-trip interpretation: after a successful [convert], for every
    [x] with one entry per destination variable, [interpret x] returns, with
    [self] unchanged, a vector as long as the source variable list; its i-th
    entry is the entry of [x] at the position of the one destination variable
    named like the i-th source variable; the output is the first entries of
    [x], so entries of [x] at slack positions never reach it. *)
Theorem interpret_round_trip p self d self' (x : list Q) :
  convert p self = (Return d, self') →
  length x = length (QuadraticProgram.variables d) →
  let n := length (QuadraticProgram.variables p) in
  ∃ out : list Q,
    interpret x self' = (Return out, self')
    ∧ length out = n
    ∧ (∀ i v, QuadraticProgram.variables p !! i = Some v →
         ∃ j w, QuadraticProgram.variables d !! j = Some w
                ∧ Var.name w = Var.name v
                ∧ (∀ j' w', QuadraticProgram.variables d !! j' = Some w' →
                            Var.name w' = Var.name v → j' = j)
                ∧ out !! i = x !! j)
    ∧ out = take n x
    ∧ (∀ x' : list Q, length x' = length x → take n x' = take n x →
         interpret x' self' = (Return out, self')).
Proof.
  intros H Hlen n.
  apply convert_Return in H as (_ & Hd & -> & Hnd & _).
  assert (n ≤ length x)%nat as Hn.
  { rewrite Hlen, Hd. unfold converted. simpl.
    rewrite length_app, length_fmap. fold n. lia. }
  assert (∀ x' : list Q, length x' = length x →
            interpret x' (mkConverter (Some p) (Some d) (_mode self))
            = (Return (take n x'), mkConverter (Some p) (Some d) (_mode self)))
    as Hrun.
  { intros x' Hlen'. unfold interpret.
    rewrite bind_unfold. simpl. rewrite bind_unfold. simpl.
    destruct (build_sol_Return x' (Var.name <$> QuadraticProgram.variables d) 0 ∅)
      as (sol & Hsol & Hin & _).
    { exact Hnd. }
    { rewrite length_fmap. simpl. lia. }
    rewrite bind_unfold. unfold lift at 1. rewrite Hsol. unfold lift.
    rewrite (fill_new_x_Return sol _ 0 _ (take n x')).
    - simpl. unfold get_num_vars. fold n. rewrite drop_replicate.
      replace (n - n)%nat with 0%nat by lia. simpl. by rewrite app_nil_r.
    - apply Forall2_same_length_lookup_2.
      { rewrite length_take. fold n. lia. }
      intros i v q Hv Hq. apply lookup_take_Some in Hq as [Hq Hi].
      rewrite <- Hq. apply (Hin i). rewrite list_lookup_fmap, Hd.
      by rewrite (converted_variables_lookup _ _ _ _ Hv); simpl; rewrite copied_name.
    - unfold get_num_vars. rewrite length_replicate. simpl. lia. }
  exists (take n x). split_and!.
  - by apply Hrun.
  - rewrite length_take. lia.
  - intros i v Hv. exists i, (copied v).
    assert (QuadraticProgram.variables d !! i = Some (copied v)) as Hi.
    { rewrite Hd. by apply converted_variables_lookup. }
    split_and!; [done|apply copied_name| |].
    + intros j' w' Hj' Hname.
      apply (NoDup_lookup _ j' i (Var.name v) Hnd); unfold var_names;
        rewrite list_lookup_fmap.
      * by rewrite Hj'; simpl; rewrite Hname.
      * by rewrite Hi; simpl; rewrite copied_name.
    + apply lookup_take_lt. apply lookup_lt_Some in Hv. done.
  - done.
  - intros x' Hlen' Htake. rewrite <- Htake. by apply Hrun.
Qed.

Lemma interpret_round_trip_witness :
  ∃ out : list Q,
    interpret [2; 5]
      (mkConverter (Some ex_ge) (Some (converted "auto" ex_ge)) "auto")
    = (Return out, mkConverter (Some ex_ge) (Some (converted "auto" ex_ge)) "auto")
    ∧ out = [2].
Proof.
  destruct (interpret_round_trip ex_ge (__init__ "auto") (converted "auto" ex_ge)
              (mkConverter (Some ex_ge) (Some (converted "auto" ex_ge)) "auto")
              [2; 5])
    as (out & Hrun & _ & _ & Hout & _).
  - vm_compute. reflexivity.
  - vm_compute. reflexivity.
  - exists out. split; [exact Hrun|exact Hout].
Defined.

Lemma linear_slacks_are_slacks m p c :
  c ∈ QuadraticProgram.linear_constraints p →
  Forall (is_slack_of p) (linear_slacks m p c).
Proof.
  intros Hc. unfold linear_slacks, plan_slacks, slack_vars.
  assert (∀ mode ub, is_slack_of p
            (Var.mk (slack_name mode (LinearConstraint.name c)) (slack_kind mode) 0 ub))
    as Hs.
  { intros mode ub. split; [reflexivity|].
    eexists _, _. split_and!; [reflexivity|reflexivity|left].
    apply list_elem_of_fmap. eauto. }
  destruct (LinearConstraint.sense c); [| |constructor];
    (destruct (Qlt_le_dec 0 _); [apply Forall_singleton, Hs|constructor]).
Qed.

Lemma quadratic_slacks_are_slacks m p c :
  c ∈ QuadraticProgram.quadratic_constraints p →
  Forall (is_slack_of p) (quadratic_slacks m p c).
Proof.
  intros Hc. unfold quadratic_slacks, plan_slacks, slack_vars.
  assert (∀ mode ub, is_slack_of p
            (Var.mk (slack_name mode (QuadraticConstraint.name c)) (slack_kind mode) 0 ub))
    as Hs.
  { intros mode ub. split; [reflexivity|].
    eexists _, _. split_and!; [reflexivity|reflexivity|right].
    apply list_elem_of_fmap. eauto. }
  destruct (QuadraticConstraint.sense c); [| |constructor];
    (destruct (Qlt_le_dec 0 _); [apply Forall_singleton, Hs|constructor]).
Qed.

(** C3, as stated, fails: a binary variable whose bounds were set to [1, 1]
    is copied by [binary_var(name=x.name)] alone, so its destination twin has
    the bounds of a fresh binary variable. *)
Lemma variable_preservation_counterexample :
  ∃ d self' x y,
    convert ex_fixed_binary (__init__ "auto") = (Return d, self')
    ∧ QuadraticProgram.variables ex_fixed_binary !! 0%nat = Some x
    ∧ QuadraticProgram.variables d !! 0%nat = Some y
    ∧ Var.name y = Var.name x
    ∧ Var.vartype y = Var.vartype x
    ∧ ¬ Var.lowerbound y == Var.lowerbound x.
Proof.
  eexists _, _, _, _. split_and!; [vm_compute; reflexivity|reflexivity..|].
  intros H. vm_compute in H. discriminate H.
Qed.

(** C3, amended. Every source variable appears in the destination model at
    the same index, before every slack variable, with identical name and
    kind; integer and continuous variables are identical altogether; a binary
    variable gets the bounds 0 and 1 of a fresh binary variable. *)
Theorem variable_preservation p self d self' :
  convert p self = (Return d, self') →
  ∃ copies slacks,
    QuadraticProgram.variables d = copies ++ slacks
    ∧ Forall2 (λ x y, Var.name y = Var.name x
                      ∧ Var.vartype y = Var.vartype x
                      ∧ (Var.vartype x ≠ BINARY → y = x)
                      ∧ (Var.vartype x = BINARY →
                         Var.lowerbound y = 0 ∧ Var.upperbound y = 1))
        (QuadraticProgram.variables p) copies
    ∧ Forall (is_slack_of p) slacks.
Proof.
  intros H. apply convert_Return in H as (_ & -> & _).
  eexists _, _. split_and!; [reflexivity| |].
  - apply Forall2_fmap_r, Forall_Forall2_diag, Forall_true. intros x.
    split_and!; [apply copied_name|apply copied_vartype
                |apply copied_not_binary|apply copied_binary].
  - apply Forall_app. split; apply Forall_bind, Forall_forall; intros c Hc.
    + by apply linear_slacks_are_slacks.
    + by apply quadratic_slacks_are_slacks.
Qed.

Lemma variable_preservation_witness :
  ∃ copies slacks,
    QuadraticProgram.variables (converted "auto" ex_ge) = copies ++ slacks
    ∧ Forall2 (λ x y, Var.name y = Var.name x
                      ∧ Var.vartype y = Var.vartype x
                      ∧ (Var.vartype x ≠ BINARY → y = x)
                      ∧ (Var.vartype x = BINARY →
                         Var.lowerbound y = 0 ∧ Var.upperbound y = 1))
        (QuadraticProgram.variables ex_ge) copies
    ∧ Forall (is_slack_of ex_ge) slacks.
Proof.
  apply (variable_preservation ex_ge (__init__ "auto") _
           (mkConverter (Some ex_ge) (Some (converted "auto" ex_ge)) "auto")).
  vm_compute. reflexivity.
Defined.

Lemma is_integer_true v : is_integer v = true ↔ inject_Z (Qfloor v) == v.
Proof. unfold is_integer. apply Qeq_bool_iff. Qed.

Lemma _any_float_true values :
  _any_float values = true ↔ ∃ v, Scalar v ∈ values ∧ ¬ inject_Z (Qfloor v) == v.
Proof.
  unfold _any_float. rewrite existsb_exists. split.
  - intros ([v|row] & Hin & Hv); [|done]. exists v.
    split; [by apply list_elem_of_In|].
    rewrite <- is_integer_true. simpl in Hv. by destruct (is_integer v).
  - intros (v & Hin & Hv). exists (Scalar v). split; [by apply list_elem_of_In|].
    rewrite <- is_integer_true in Hv. simpl. by destruct (is_integer v).
Qed.

(** The rows of the square array are no floats: the test of [_any_float]
    fails on each of them, whatever the coefficients. *)
Lemma _any_float_rows (f : Var.t → list Q) (xs : list Var.t) :
  _any_float ((λ x, Row (f x)) <$> xs) = false.
Proof.
  unfold _any_float. induction xs as [|x xs IH]; [reflexivity|].
  rewrite fmap_cons. simpl. exact IH.
Qed.

Lemma _any_float_quadratic_to_array owner q :
  _any_float (quadratic_to_array owner q) = false.
Proof. unfold quadratic_to_array. apply _any_float_rows. Qed.

(** Mode resolution as the two slack injections perform it, on a converter
    whose destination model exists: [any_float] is true exactly when a
    coefficient of the dense array of the linear part is not integral (the
    rows of the quadratic array never count); mode "integer" with [any_float]
    raises the error whose message starts with the quoted constraint name,
    leaving [self] as it was; mode "auto" resolves to "continuous" if
    [any_float] and to "integer" otherwise, a choice in which the right-hand
    side takes no part, and the method then behaves as under that mode; mode
    "continuous" stays "continuous". *)
Lemma slack_mode_resolution owner self d :
  _dst self = Some d →
  (∀ c : LinearConstraint.t,
     let name := LinearConstraint.name c in
     let any_float := _any_float (linear_to_array owner (LinearConstraint.linear c)) in
     let auto_mode : string := if any_float then "continuous" else "integer" in
     (any_float = true ↔
        ∃ v, Scalar v ∈ linear_to_array owner (LinearConstraint.linear c)
             ∧ ¬ inject_Z (Qfloor v) == v)
     ∧ (_mode self = "integer" → any_float = true →
        _add_slack_var_linear_constraint owner c self
        = (Raise (QiskitOptimizationError (float_coefficients_msg name)), self)
        ∧ ∃ rest, float_coefficients_msg name = dquote +:+ name +:+ dquote +:+ rest)
     ∧ (_mode self = "auto" →
        resolve_mode name any_float self = (Return auto_mode, self)
        ∧ _add_slack_var_linear_constraint owner c self
          = under_mode auto_mode (_add_slack_var_linear_constraint owner c) self)
     ∧ (_mode self = "continuous" →
        resolve_mode name any_float self = (Return "continuous", self)))
  ∧ (∀ c : QuadraticConstraint.t,
       let name := QuadraticConstraint.name c in
       let any_float :=
         _any_float (linear_to_array owner (QuadraticConstraint.linear c))
         || _any_float (quadratic_to_array owner (QuadraticConstraint.quadratic c)) in
       let auto_mode : string := if any_float then "continuous" else "integer" in
       (any_float = true ↔
          ∃ v, Scalar v ∈ linear_to_array owner (QuadraticConstraint.linear c)
               ∧ ¬ inject_Z (Qfloor v) == v)
       ∧ (_mode self = "integer" → any_float = true →
          _add_slack_var_quadratic_constraint owner c self
          = (Raise (QiskitOptimizationError (float_coefficients_msg name)), self)
          ∧ ∃ rest, float_coefficients_msg name = dquote +:+ name +:+ dquote +:+ rest)
       ∧ (_mode self = "auto" →
          resolve_mode name any_float self = (Return auto_mode, self)
          ∧ _add_slack_var_quadratic_constraint owner c self
            = under_mode auto_mode (_add_slack_var_quadratic_constraint owner c) self)
       ∧ (_mode self = "continuous" →
          resolve_mode name any_float self = (Return "continuous", self))).
Proof.
  intros Hd.
  assert (∀ any_float : bool,
            (if any_float then "continuous" else "integer" : string) ∈ valid_modes)
    as Hvalid.
  { intros []; unfold valid_modes; set_solver. }
  assert (∀ any_float : bool,
            effective_mode (if any_float then "continuous" else "integer") any_float
            = effective_mode "auto" any_float) as Heff.
  { intros []; reflexivity. }
  split; intros c name any_float auto_mode.
  - split_and!.
    + apply _any_float_true.
    + intros Hm Haf. split; [|eexists; reflexivity].
      rewrite (_add_slack_var_linear_constraint_eq _ _ _ d Hd)
        by (rewrite Hm; unfold valid_modes; set_solver).
      by rewrite decide_True.
    + intros Hm. split.
      { rewrite resolve_mode_eq, decide_False by (rewrite Hm; intros [[=] _]).
        by rewrite Hm. }
      unfold under_mode.
      rewrite (_add_slack_var_linear_constraint_eq _ _ _ d Hd)
        by (rewrite Hm; unfold valid_modes; set_solver).
      rewrite (_add_slack_var_linear_constraint_eq owner c (mkConverter _ _ auto_mode) d Hd)
        by apply Hvalid.
      cbn [_mode _dst _src].
      rewrite decide_False by (rewrite Hm; intros [[=] _]).
      rewrite (decide_False (P := auto_mode = "integer" ∧ _)).
      2:{ unfold auto_mode, linear_any_float. fold any_float.
          destruct any_float; intros [[=] [=]]. }
      assert (linear_plan auto_mode owner c = linear_plan (_mode self) owner c) as ->.
      { unfold linear_plan, make_plan, auto_mode, linear_any_float. fold any_float.
        by rewrite Heff, Hm. }
      destruct (decide (fresh_in d _)); simpl; [|by destruct self].
      by destruct self.
    + intros Hm. rewrite resolve_mode_eq, decide_False by (rewrite Hm; intros [[=] _]).
      by rewrite Hm.
  - split_and!.
    + unfold any_float.
      rewrite _any_float_quadratic_to_array, orb_false_r. apply _any_float_true.
    + intros Hm Haf. split; [|eexists; reflexivity].
      rewrite (_add_slack_var_quadratic_constraint_eq _ _ _ d Hd)
        by (rewrite Hm; unfold valid_modes; set_solver).
      by rewrite decide_True.
    + intros Hm. split.
      { rewrite resolve_mode_eq, decide_False by (rewrite Hm; intros [[=] _]).
        by rewrite Hm. }
      unfold under_mode.
      rewrite (_add_slack_var_quadratic_constraint_eq _ _ _ d Hd)
        by (rewrite Hm; unfold valid_modes; set_solver).
      rewrite (_add_slack_var_quadratic_constraint_eq owner c (mkConverter _ _ auto_mode) d Hd)
        by apply Hvalid.
      cbn [_mode _dst _src].
      rewrite decide_False by (rewrite Hm; intros [[=] _]).
      rewrite (decide_False (P := auto_mode = "integer" ∧ _)).
      2:{ unfold auto_mode, quadratic_any_float. fold any_float.
          destruct any_float; intros [[=] [=]]. }
      assert (quadratic_plan auto_mode owner c = quadratic_plan (_mode self) owner c) as ->.
      { unfold quadratic_plan, make_plan, auto_mode, quadratic_any_float. fold any_float.
        by rewrite Heff, Hm. }
      destruct (decide (fresh_in d _)); simpl; [|by destruct self].
      by destruct self.
    + intros Hm. rewrite resolve_mode_eq, decide_False by (rewrite Hm; intros [[=] _]).
      by rewrite Hm.
Qed.

Lemma slack_mode_resolution_witness :
  let self := mkConverter (Some ex_half) (Some ex_half_copied) "integer" in
  _add_slack_var_linear_constraint ex_half
    (LinearConstraint.mk {["y" := 1 # 2]} LE 3 "c0") self
  = (Raise (QiskitOptimizationError (float_coefficients_msg "c0")), self).
Proof.
  intros self.
  destruct (slack_mode_resolution ex_half self ex_half_copied eq_refl) as [Hlin _].
  destruct (Hlin (LinearConstraint.mk {["y" := 1 # 2]} LE 3 "c0"))
    as (_ & Hint & _).
  apply Hint; reflexivity.
Defined.

(** C4. The quadratic half of mode resolution is not what the code does:
    [_any_float] is handed the square array of the quadratic part, meets its
    rows, and finds no float among them, so the quadratic coefficients never
    reach the test.  For [0.5 x x <= 3] with [x] an integer in [0, 2],
    [convert] under "integer" raises nothing and under "auto" does not turn
    to "continuous": both return the model with the integer slack
    [q0@int_slack] in [0, 3]. *)
Theorem quadratic_fraction_undetected :
  (∀ owner c,
     _any_float (linear_to_array owner (QuadraticConstraint.linear c))
     || _any_float (quadratic_to_array owner (QuadraticConstraint.quadratic c))
     = _any_float (linear_to_array owner (QuadraticConstraint.linear c)))
  ∧ QuadraticProgram.quadratic_constraints ex_half_square
    = [QuadraticConstraint.mk ∅ {[("x", "x")%core := 1 # 2]} LE 3 "q0"]
  ∧ ¬ inject_Z (Qfloor (1 # 2)) == 1 # 2
  ∧ Forall (λ m,
       ∃ d self' s,
         convert ex_half_square (__init__ m) = (Return d, self')
         ∧ QuadraticProgram.variables d = [Var.mk "x" INTEGER 0 2; s]
         ∧ Var.name s = "q0@int_slack"
         ∧ Var.vartype s = INTEGER
         ∧ Var.lowerbound s == 0
         ∧ Var.upperbound s == 3)
      ["integer"; "auto"].
Proof.
  split_and!.
  - intros owner c. by rewrite _any_float_quadratic_to_array, orb_false_r.
  - reflexivity.
  - intros H. vm_compute in H. discriminate H.
  - repeat apply Forall_cons_2; [| |apply Forall_nil_2];
      (eexists _, _, _; split_and!;
       [vm_compute; reflexivity|reflexivity..]).
Qed.



















Lemma Qlt_le_dec_pos {A} x (a b : A) : 0 < x → (if Qlt_le_dec 0 x then a else b) = a.
Proof.
  intros Hx. destruct (Qlt_le_dec 0 x) as [|Hle]; [done|].
  exfalso. apply (Qlt_irrefl 0). by eapply Qlt_le_trans.
Qed.

(** The slack variable of constraint [c], when one is created. *)
Lemma linear_slack_created m p c :
  LinearConstraint.sense c ≠ EQ →
  0 < plan_ub (linear_plan m p c) →
  let pl := linear_plan m p c in
  let sname := slack_name (plan_mode pl) (LinearConstraint.name c) in
  linear_slacks m p c = [Var.mk sname (slack_kind (plan_mode pl)) 0 (plan_ub pl)]
  ∧ rewritten_linear m p c
    = LinearConstraint.mk
        (<[sname := inject_Z (plan_sign pl)]> (LinearConstraint.linear c))
        EQ (plan_rhs pl) (LinearConstraint.name c).
Proof.
  intros Hne Hpos pl sname.
  unfold linear_slacks, rewritten_linear, plan_slacks, plan_linear,
    slack_vars, slack_linear.
  fold pl. rewrite !Qlt_le_dec_pos by done.
  by destruct (LinearConstraint.sense c).
Qed.










(** In binary64 the identity above can fail by a rounding error: with
    interval lower bound -9.49 and right-hand side 0.83 the slack bound is
    10.32, and -9.49 + 10.32 is the float next above 0.83. *)
#[warning="-inexact-float"]
Lemma binary64_lhs_rounds :
  let lhs_lb := PrimFloat.opp 9.49 in
  let rhs := 0.83%float in
  PrimFloat.eqb (binary64_slack_ub rhs lhs_lb) 10.32 = true
  ∧ PrimFloat.eqb (binary64_lhs_at_lb rhs lhs_lb) rhs = false
  ∧ PrimFloat.eqb (binary64_lhs_at_lb rhs lhs_lb) (PrimFloat.next_up rhs) = true.
Proof. vm_compute. split_and!; reflexivity. Qed.

Lemma linear_Return_inv owner c self new_linear sense r name self' :
  _add_slack_var_linear_constraint owner c self
    = (Return (new_linear, sense, r, name), self') →
  let pl := linear_plan (_mode self) owner c in
  r = plan_rhs pl ∧ sense = EQ ∧ name = LinearConstraint.name c
  ∧ add_slack (plan_mode pl) (LinearConstraint.name c) (plan_ub pl) (plan_sign pl)
      (LinearConstraint.linear c) self = (Return new_linear, self').
Proof.
  unfold _add_slack_var_linear_constraint. intros H.
  apply bind_Return in H as (d0 & s1 & H1 & H).
  assert (s1 = self) as ->.
  { unfold get_dst in H1. destruct (_dst self); by injection H1. }
  apply bind_Return in H as (mode & s2 & H2 & H).
  rewrite resolve_mode_eq in H2. fold (linear_any_float owner c) in H2.
  destruct (decide (_ ∧ _)); [done|]. injection H2 as <- <-.
  unfold linear_plan, make_plan. simpl.
  destruct (slack_bound _ _ _ _) as [var_ub sign]. simpl.
  apply bind_Return in H as (nl & s3 & H3 & H). by injection H as <- <- <- <- <-.
Qed.

Lemma quadratic_Return_inv owner c self new_linear quadratic sense r name self' :
  _add_slack_var_quadratic_constraint owner c self
    = (Return (new_linear, quadratic, sense, r, name), self') →
  let pl := quadratic_plan (_mode self) owner c in
  r = plan_rhs pl ∧ sense = EQ ∧ name = QuadraticConstraint.name c
  ∧ quadratic = QuadraticConstraint.quadratic c
  ∧ add_slack (plan_mode pl) (QuadraticConstraint.name c) (plan_ub pl) (plan_sign pl)
      (QuadraticConstraint.linear c) self = (Return new_linear, self').
Proof.
  unfold _add_slack_var_quadratic_constraint. intros H.
  apply bind_Return in H as (d0 & s1 & H1 & H).
  assert (s1 = self) as ->.
  { unfold get_dst in H1. destruct (_dst self); by injection H1. }
  apply bind_Return in H as (mode & s2 & H2 & H).
  rewrite resolve_mode_eq in H2. fold (quadratic_any_float owner c) in H2.
  destruct (decide (_ ∧ _)); [done|]. injection H2 as <- <-.
  unfold quadratic_plan, make_plan. simpl.
  destruct (slack_bound _ _ _ _) as [var_ub sign]. simpl.
  apply bind_Return in H as (nl & s3 & H3 & H). by injection H as <- <- <- <- <- <-.
Qed.

Lemma round_rhs_spec mode sense rhs :
  (mode = "integer" → sense = LE →
   round_rhs mode sense rhs = inject_Z (Qfloor rhs) ∧ round_rhs mode sense rhs <= rhs)
  ∧ (mode = "integer" → sense = GE →
     round_rhs mode sense rhs = inject_Z (Qceiling rhs) ∧ rhs <= round_rhs mode sense rhs)
  ∧ (mode = "continuous" → round_rhs mode sense rhs = rhs).
Proof.
  unfold round_rhs. split_and!.
  - intros -> ->. simpl. split; [reflexivity|apply Qfloor_le].
  - intros -> ->. simpl. split; [reflexivity|apply Qle_ceiling].
  - intros ->. reflexivity.
Qed.

(** C7. Integer tightening: whenever the linear or the quadratic slack
    injection returns, the right-hand side it returns is, under effective
    mode "integer", the floor of the original one for sense [LE] (so not
    above it) and its ceiling for sense [GE] (so not below it); under
    effective mode "continuous" it is the original right-hand side. *)
Theorem integer_tightening owner self :
  (∀ c new_linear sense r name self',
     _add_slack_var_linear_constraint owner c self
       = (Return (new_linear, sense, r, name), self') →
     let mode := effective_mode (_mode self)
                   (_any_float (linear_to_array owner (LinearConstraint.linear c))) in
     let rhs := LinearConstraint.rhs c in
     (mode = "integer" → LinearConstraint.sense c = LE →
      r = inject_Z (Qfloor rhs) ∧ r <= rhs)
     ∧ (mode = "integer" → LinearConstraint.sense c = GE →
        r = inject_Z (Qceiling rhs) ∧ rhs <= r)
     ∧ (mode = "continuous" → r = rhs))
  ∧ (∀ c new_linear quadratic sense r name self',
       _add_slack_var_quadratic_constraint owner c self
         = (Return (new_linear, quadratic, sense, r, name), self') →
       let mode :=
         effective_mode (_mode self)
           (_any_float (linear_to_array owner (QuadraticConstraint.linear c))
            || _any_float (quadratic_to_array owner (QuadraticConstraint.quadratic c))) in
       let rhs := QuadraticConstraint.rhs c in
       (mode = "integer" → QuadraticConstraint.sense c = LE →
        r = inject_Z (Qfloor rhs) ∧ r <= rhs)
       ∧ (mode = "integer" → QuadraticConstraint.sense c = GE →
          r = inject_Z (Qceiling rhs) ∧ rhs <= r)
       ∧ (mode = "continuous" → r = rhs)).
Proof.
  split.
  - intros c nl s r n self' H mode rhs.
    apply linear_Return_inv in H as (-> & _).
    apply round_rhs_spec.
  - intros c nl q s r n self' H mode rhs.
    apply quadratic_Return_inv in H as (-> & _).
    apply round_rhs_spec.
Qed.

Lemma integer_tightening_witness :
  (4 : Q) = inject_Z (Qceiling (7 # 2)) ∧ 7 # 2 <= 4.
Proof.
  pose (d := add_variables [Var.mk "x" INTEGER 0 10] (new_program "ge")).
  pose (self := mkConverter (Some ex_ge) (Some d) "auto").
  pose (c := LinearConstraint.mk {["x" := 1]} GE (7 # 2) "c0").
  destruct (integer_tightening ex_ge self) as [Hlin _].
  destruct (Hlin c (<["c0@int_slack" := -1]> {["x" := 1]}) EQ 4 "c0"
              (with_dst (add_variables [Var.mk "c0@int_slack" INTEGER 0 6] d) self))
    as (_ & Hge & _).
  - vm_compute. reflexivity.
  - apply Hge; reflexivity.
Defined.

Lemma redundant_slack_bound sense r lb ub :
  redundant sense r lb ub → (slack_bound sense r lb ub).1 <= 0.
Proof. destruct sense; simpl; [done..|]. intros _. apply Qle_refl. Qed.

Lemma add_slack_redundant mode name var_ub sign linear self r self' :
  var_ub <= 0 →
  add_slack mode name var_ub sign linear self = (r, self') →
  r = Return linear ∧ self' = self.
Proof.
  intros Hle. unfold add_slack. destruct (Qlt_le_dec 0 var_ub) as [Hpos|_].
  - exfalso. apply (Qlt_irrefl 0). by eapply Qlt_le_trans.
  - by intros [= <- <-].
Qed.

Lemma slack_vars_redundant mode name var_ub :
  var_ub <= 0 → slack_vars mode name var_ub = [].
Proof.
  intros Hle. unfold slack_vars. destruct (Qlt_le_dec 0 var_ub) as [Hpos|_]; [|done].
  exfalso. apply (Qlt_irrefl 0). by eapply Qlt_le_trans.
Qed.

Lemma list_bind_nil {A B} (f : A → list B) (l : list A) :
  Forall (λ a, f a = []) l → l ≫= f = [].
Proof.
  induction 1 as [|a l Ha _ IH]; [done|]. by rewrite bind_cons, Ha, IH.
Qed.

(** C8. No slack when redundant.  If the slack upper bound computed for an
    inequality is not positive, the slack injection (linear or quadratic)
    leaves [self], hence the destination model, as it was and returns the
    original linear terms (and quadratic terms), sense [EQ], the adjusted
    right-hand side and the original name.  If that holds for every
    inequality of the source model, the model returned by [convert] has
    exactly the copied source variables, so as many as the source. *)
Theorem no_slack_when_redundant :
  (∀ owner c self new_linear sense r name self',
     _add_slack_var_linear_constraint owner c self
       = (Return (new_linear, sense, r, name), self') →
     let b := linear_bounds owner (LinearConstraint.linear c) in
     redundant (LinearConstraint.sense c) r b.1 b.2 →
     self' = self
     ∧ new_linear = LinearConstraint.linear c
     ∧ sense = EQ
     ∧ r = round_rhs (effective_mode (_mode self) (linear_any_float owner c))
             (LinearConstraint.sense c) (LinearConstraint.rhs c)
     ∧ name = LinearConstraint.name c)
  ∧ (∀ owner c self new_linear quadratic sense r name self',
       _add_slack_var_quadratic_constraint owner c self
         = (Return (new_linear, quadratic, sense, r, name), self') →
       let lb := linear_bounds owner (QuadraticConstraint.linear c) in
       let qb := quadratic_bounds owner (QuadraticConstraint.quadratic c) in
       redundant (QuadraticConstraint.sense c) r (lb.1 + qb.1) (lb.2 + qb.2) →
       self' = self
       ∧ new_linear = QuadraticConstraint.linear c
       ∧ quadratic = QuadraticConstraint.quadratic c
       ∧ sense = EQ
       ∧ r = round_rhs (effective_mode (_mode self) (quadratic_any_float owner c))
               (QuadraticConstraint.sense c) (QuadraticConstraint.rhs c)
       ∧ name = QuadraticConstraint.name c)
  ∧ (∀ p self d self',
       convert p self = (Return d, self') →
       (∀ c, c ∈ QuadraticProgram.linear_constraints p →
          let b := linear_bounds p (LinearConstraint.linear c) in
          redundant (LinearConstraint.sense c)
            (round_rhs (effective_mode (_mode self) (linear_any_float p c))
               (LinearConstraint.sense c) (LinearConstraint.rhs c)) b.1 b.2) →
       (∀ c, c ∈ QuadraticProgram.quadratic_constraints p →
          let lb := linear_bounds p (QuadraticConstraint.linear c) in
          let qb := quadratic_bounds p (QuadraticConstraint.quadratic c) in
          redundant (QuadraticConstraint.sense c)
            (round_rhs (effective_mode (_mode self) (quadratic_any_float p c))
               (QuadraticConstraint.sense c) (QuadraticConstraint.rhs c))
            (lb.1 + qb.1) (lb.2 + qb.2)) →
       QuadraticProgram.variables d = copied <$> QuadraticProgram.variables p
       ∧ length (QuadraticProgram.variables d) = length (QuadraticProgram.variables p)).
Proof.
  split_and!.
  - intros owner c self nl s r n self' H b Hred.
    apply linear_Return_inv in H as (Hr & -> & -> & H).
    apply add_slack_redundant in H as [[= <-] ->].
    + by rewrite Hr.
    + rewrite Hr in Hred. by apply redundant_slack_bound in Hred.
  - intros owner c self nl q s r n self' H lb qb Hred.
    apply quadratic_Return_inv in H as (Hr & -> & -> & -> & H).
    apply add_slack_redundant in H as [[= <-] ->].
    + by rewrite Hr.
    + rewrite Hr in Hred. by apply redundant_slack_bound in Hred.
  - intros p self d self' H Hlin Hquad.
    apply convert_Return in H as (_ & -> & _).
    assert (QuadraticProgram.variables (converted (_mode self) p)
            = copied <$> QuadraticProgram.variables p) as Hvars.
    { unfold converted. simpl.
      assert (QuadraticProgram.linear_constraints p ≫= linear_slacks (_mode self) p = [])
        as ->.
      { apply list_bind_nil, Forall_forall. intros c Hc. specialize (Hlin c Hc).
        apply redundant_slack_bound in Hlin.
        change (plan_ub (linear_plan (_mode self) p c) <= 0) in Hlin.
        unfold linear_slacks.
        destruct (LinearConstraint.sense c); [| |done];
          by apply slack_vars_redundant. }
      assert (QuadraticProgram.quadratic_constraints p
                ≫= quadratic_slacks (_mode self) p = []) as ->.
      { apply list_bind_nil, Forall_forall. intros c Hc. specialize (Hquad c Hc).
        apply redundant_slack_bound in Hquad.
        change (plan_ub (quadratic_plan (_mode self) p c) <= 0) in Hquad.
        unfold quadratic_slacks.
        destruct (QuadraticConstraint.sense c); [| |done];
          by apply slack_vars_redundant. }
      by rewrite !app_nil_r. }
    split; [done|]. by rewrite Hvars, length_fmap.
Qed.

Lemma no_slack_when_redundant_witness :
  QuadraticProgram.variables (converted "auto" ex_redundant)
    = copied <$> QuadraticProgram.variables ex_redundant
  ∧ length (QuadraticProgram.variables (converted "auto" ex_redundant))
    = length (QuadraticProgram.variables ex_redundant).
Proof.
  destruct no_slack_when_redundant as (_ & _ & Hconvert).
  apply (Hconvert ex_redundant (__init__ "auto") (converted "auto" ex_redundant)
           (mkConverter (Some ex_redundant) (Some (converted "auto" ex_redundant)) "auto")).
  - vm_compute. reflexivity.
  - intros c Hc. apply list_elem_of_singleton in Hc as ->.
    vm_compute. intros [=].
  - intros c Hc. apply list_elem_of_singleton in Hc as ->.
    vm_compute. intros [=].
Defined.

Lemma mode_accepted_ret {A} (a : A) : mode_accepted (mret a).
Proof. by intros self e self' [=]. Qed.

Lemma mode_accepted_bind {A B} (m : M A) (f : A → M B) :
  mode_accepted m → (∀ a, mode_accepted (f a)) → mode_accepted (m ≫= f).
Proof.
  intros Hm Hf self e self' H.
  apply bind_Raise in H as [H|(a & s & _ & H)]; [by eapply Hm|by eapply Hf].
Qed.

Lemma mode_accepted_mapM {A B} (f : A → M B) l :
  (∀ a, mode_accepted (f a)) → mode_accepted (mapM f l).
Proof.
  intros Hf. induction l as [|a l IH]; simpl; [apply mode_accepted_ret|].
  apply mode_accepted_bind; [apply Hf|intros b].
  apply mode_accepted_bind; [apply IH|intros bs; apply mode_accepted_ret].
Qed.

Lemma mode_accepted_forM_ {A} (f : A → M unit) l :
  (∀ a, mode_accepted (f a)) → mode_accepted (forM_ f l).
Proof.
  intros Hf. induction l as [|a l IH]; simpl; [apply mode_accepted_ret|].
  apply mode_accepted_bind; [apply Hf|intros _; apply IH].
Qed.

Lemma mode_accepted_on_dst op :
  (∀ d e, op d = Raise e → ¬ unsupported_mode_error e) →
  mode_accepted (on_dst op).
Proof.
  intros Hop self e self'. unfold on_dst. destruct (_dst self) as [d|].
  - destruct (op d) as [d'|e'] eqn:E; [done|]. intros [= <- <-]. by eapply Hop.
  - intros [= <- <-] [m [=]].
Qed.

Lemma mode_accepted_get_dst : mode_accepted get_dst.
Proof.
  intros self e self'. unfold get_dst. destruct (_dst self); [done|].
  intros [= <- <-] [m [=]].
Qed.

Lemma _add_variable_accepted x d e :
  _add_variable x d = Raise e → ¬ unsupported_mode_error e.
Proof.
  unfold _add_variable. case_decide; [|done]. intros [= <-] [m [=]].
Qed.

Lemma mode_accepted_resolve_mode name any_float :
  mode_accepted (resolve_mode name any_float).
Proof.
  intros self e self'. rewrite resolve_mode_eq. case_decide; [|done].
  intros [= <- <-] [m Hmsg]. vm_compute in Hmsg. discriminate Hmsg.
Qed.

Lemma mode_accepted_add_slack mode name var_ub sign linear :
  mode_accepted (add_slack mode name var_ub sign linear).
Proof.
  unfold add_slack. destruct (Qlt_le_dec 0 var_ub); [|apply mode_accepted_ret].
  destruct (mode_name mode); [|by intros self e self' [= <- <-] [m [=]]].
  apply mode_accepted_bind; [|intros; apply mode_accepted_ret].
  repeat case_decide;
    [apply mode_accepted_on_dst, _add_variable_accepted..|apply mode_accepted_ret].
Qed.

Lemma mode_accepted_linear_step owner c : mode_accepted (linear_step owner c).
Proof.
  unfold linear_step.
  destruct (LinearConstraint.sense c); [| |apply mode_accepted_ret];
    (unfold _add_slack_var_linear_constraint;
     apply mode_accepted_bind; [apply mode_accepted_get_dst|intros _];
     apply mode_accepted_bind; [apply mode_accepted_resolve_mode|intros mode];
     destruct (slack_bound _ _ _ _);
     apply mode_accepted_bind;
       [apply mode_accepted_add_slack|intros; apply mode_accepted_ret]).
Qed.

Lemma mode_accepted_quadratic_step owner c : mode_accepted (quadratic_step owner c).
Proof.
  unfold quadratic_step.
  destruct (QuadraticConstraint.sense c); [| |apply mode_accepted_ret];
    (unfold _add_slack_var_quadratic_constraint;
     apply mode_accepted_bind; [apply mode_accepted_get_dst|intros _];
     apply mode_accepted_bind; [apply mode_accepted_resolve_mode|intros mode];
     destruct (slack_bound _ _ _ _);
     apply mode_accepted_bind;
       [apply mode_accepted_add_slack|intros; apply mode_accepted_ret]).
Qed.

Lemma convert_mode_accepted p self e self' :
  _mode self ∈ valid_modes →
  convert p self = (Raise e, self') →
  ¬ unsupported_mode_error e.
Proof.
  intros Hm. rewrite convert_unfold.
  rewrite bind_unfold. simpl. rewrite bind_unfold. simpl.
  rewrite bind_unfold. simpl. rewrite decide_False by (intros H; by apply H).
  revert e self'.
  generalize (mkConverter (Some p) (Some (new_program (QuadraticProgram.name p)))
                (_mode self)).
  apply mode_accepted_bind.
  { apply mode_accepted_forM_. intros x. rewrite copy_variable_eq.
    apply mode_accepted_on_dst, _add_variable_accepted. }
  intros _. apply mode_accepted_bind;
    [apply mode_accepted_mapM, mode_accepted_linear_step|intros lcs].
  apply mode_accepted_bind;
    [apply mode_accepted_mapM, mode_accepted_quadratic_step|intros qcs].
  apply mode_accepted_bind; [by apply mode_accepted_on_dst|intros _].
  apply mode_accepted_bind.
  { apply mode_accepted_forM_. intros [[[l s] r] n]. apply mode_accepted_on_dst.
    intros d e. unfold linear_constraint. case_decide; [done|].
    intros [= <-] [m Hmsg]. vm_compute in Hmsg. discriminate Hmsg. }
  intros _. apply mode_accepted_bind.
  { apply mode_accepted_forM_. intros [[[[l q] s] r] n]. apply mode_accepted_on_dst.
    intros d e. unfold quadratic_constraint. case_decide; [done|].
    intros [= <-] [m Hmsg]. vm_compute in Hmsg. discriminate Hmsg. }
  intros _. apply mode_accepted_get_dst.
Qed.

(** C9. The mode is stored unchecked: the setter (like the constructor)
    returns for every string and stores it.  With a stored mode outside
    "integer", "continuous", "auto", the next [convert] raises the
    unsupported-mode error for whatever model it is given, having done
    nothing but bind the source copy and a fresh, empty destination model;
    with a stored mode among the three, [convert] never raises that error. *)
Theorem mode_checked_by_convert_only :
  (∀ m self,
     set_mode m self = (Return tt, mkConverter (_src self) (_dst self) m)
     ∧ mode (set_mode m self).2 = m)
  ∧ (∀ m, mode (__init__ m) = m)
  ∧ (∀ p self,
       _mode self ∉ valid_modes →
       convert p self
       = (Raise (QiskitOptimizationError
                   ("Unsupported mode is selected: " +:+ _mode self)),
          mkConverter (Some p) (Some (new_program (QuadraticProgram.name p)))
            (_mode self)))
  ∧ (∀ p self e self',
       _mode self ∈ valid_modes →
       convert p self = (Raise e, self') →
       ¬ ∃ m, e = QiskitOptimizationError ("Unsupported mode is selected: " +:+ m)).
Proof.
  split_and!; [done..| |].
  - intros p self Hm. rewrite convert_unfold.
    rewrite bind_unfold. simpl. rewrite bind_unfold. simpl.
    rewrite bind_unfold. simpl. by rewrite decide_True.
  - intros p self e self'. apply convert_mode_accepted.
Qed.

Lemma mode_checked_by_convert_only_witness :
  ∃ self,
    set_mode "fast" (__init__ "auto") = (Return tt, self)
    ∧ convert ex_ge self
      = (Raise (QiskitOptimizationError "Unsupported mode is selected: fast"),
         mkConverter (Some ex_ge) (Some (new_program "ge")) "fast").
Proof.
  destruct mode_checked_by_convert_only as (Hset & _ & Hconvert & _).
  eexists. split; [apply Hset|].
  apply (Hconvert ex_ge (mkConverter None None "fast")).
  unfold valid_modes. intros H. vm_compute in H.
  repeat (apply elem_of_cons in H as [[=]|H]). by apply elem_of_nil in H.
Defined.

(** C10. An integer slack with a fractional upper bound: for the continuous
    variable [x] in [0.5, 3] and the constraint [x <= 5], whose only
    coefficient is 1, [convert] under mode "auto" and under mode "integer"
    returns a model whose second variable is the integer variable
    [c0@int_slack] with bounds 0 and 4.5. *)
Theorem integer_slack_fractional_bound :
  _any_float (linear_to_array ex_fractional_bound {["x" := 1]}) = false
  ∧ Forall (λ m,
       ∃ d self' sl,
         convert ex_fractional_bound (__init__ m) = (Return d, self')
         ∧ QuadraticProgram.variables d = [Var.mk "x" CONTINUOUS (1 # 2) 3; sl]
         ∧ Var.name sl = "c0@int_slack"
         ∧ Var.vartype sl = INTEGER
         ∧ Var.upperbound sl = 9 # 2
         ∧ is_integer (Var.upperbound sl) = false
         ∧ ¬ inject_Z (Qfloor (Var.upperbound sl)) == Var.upperbound sl)
      ["auto"; "integer"].
Proof.
  split; [vm_compute; reflexivity|].
  repeat apply Forall_cons_2; [| |apply Forall_nil_2];
    (eexists _, _, _; split; [vm_compute; reflexivity|];
     split_and!; [vm_compute; reflexivity|reflexivity..|];
     intros H; vm_compute in H; discriminate H).
Qed.

End Properties.

(** ** Further properties: when [convert] returns, and what it keeps *)

Section Further.
Local Open Scope Q_scope.

Lemma NoDup_app_fresh (l : list string) (xs : list Var.t) (rest : list string) d :
  var_names d = l →
  NoDup (l ++ (Var.name <$> xs) ++ rest) →
  fresh_in d xs.
Proof.
  intros <- Hnd. apply NoDup_app in Hnd as (_ & Hdisj & _).
  apply Forall_forall. intros x Hx Hin. apply (Hdisj _ Hin).
  apply elem_of_app. left. apply list_elem_of_fmap. eauto.
Qed.

Lemma linear_equality m p c :
  LinearConstraint.sense c = EQ →
  rewritten_linear m p c = c
  ∧ linear_slacks m p c = []
  ∧ linear_step p c = mret (linear_args c).
Proof.
  intros He. unfold rewritten_linear, linear_slacks, linear_step, linear_args.
  by rewrite He.
Qed.

Lemma quadratic_equality m p c :
  QuadraticConstraint.sense c = EQ →
  rewritten_quadratic m p c = c
  ∧ quadratic_slacks m p c = []
  ∧ quadratic_step p c = mret (quadratic_args c).
Proof.
  intros He. unfold rewritten_quadratic, quadratic_slacks, quadratic_step, quadratic_args.
  by rewrite He.
Qed.

Lemma copy_loop_forward xs : ∀ self d,
  _dst self = Some d →
  NoDup (var_names (add_variables (copied <$> xs) d)) →
  forM_ copy_variable xs self
  = (Return tt, with_dst (add_variables (copied <$> xs) d) self).
Proof.
  induction xs as [|x xs IH]; intros self d Hd Hnd; simpl.
  - by rewrite add_variables_nil, (with_dst_id _ _ Hd).
  - rewrite bind_unfold, copy_variable_eq, (on_dst_add_variable _ _ d Hd).
    rewrite var_names_add_variables in Hnd. simpl in Hnd.
    rewrite decide_False.
    2:{ apply NoDup_app in Hnd as (_ & Hdisj & _). intros Hin.
        apply (Hdisj _ Hin). by left. }
    rewrite (IH _ (add_variables [copied x] d)); [|done|].
    + by rewrite add_variables_app.
    + rewrite add_variables_app, var_names_add_variables. exact Hnd.
Qed.

Lemma linear_step_forward p c self d m :
  _dst self = Some d →
  _mode self = m →
  m ∈ valid_modes →
  (LinearConstraint.sense c ≠ EQ → m = "integer" → linear_any_float p c = false) →
  fresh_in d (linear_slacks m p c) →
  linear_step p c self
  = (Return (linear_args (rewritten_linear m p c)),
     with_dst (add_variables (linear_slacks m p c) d) self).
Proof.
  intros Hd <- Hm Hint Hfresh. set (m := _mode self) in *.
  destruct (decide (LinearConstraint.sense c = EQ)) as [He|Hne].
  - destruct (linear_equality m p c He) as (-> & -> & ->).
    by rewrite add_variables_nil, (with_dst_id _ _ Hd).
  - assert (linear_step p c self = _add_slack_var_linear_constraint p c self) as ->.
    { unfold linear_step. by destruct (LinearConstraint.sense c). }
    rewrite (_add_slack_var_linear_constraint_eq _ _ _ d Hd Hm). fold m.
    destruct (linear_ineq m p c Hne) as [-> Hsl]. rewrite Hsl in Hfresh.
    rewrite decide_False.
    2:{ intros [Hi Hf]. by rewrite (Hint Hne Hi) in Hf. }
    by rewrite decide_True, Hsl.
Qed.

Lemma quadratic_step_forward p c self d m :
  _dst self = Some d →
  _mode self = m →
  m ∈ valid_modes →
  (QuadraticConstraint.sense c ≠ EQ → m = "integer" → quadratic_any_float p c = false) →
  fresh_in d (quadratic_slacks m p c) →
  quadratic_step p c self
  = (Return (quadratic_args (rewritten_quadratic m p c)),
     with_dst (add_variables (quadratic_slacks m p c) d) self).
Proof.
  intros Hd <- Hm Hint Hfresh. set (m := _mode self) in *.
  destruct (decide (QuadraticConstraint.sense c = EQ)) as [He|Hne].
  - destruct (quadratic_equality m p c He) as (-> & -> & ->).
    by rewrite add_variables_nil, (with_dst_id _ _ Hd).
  - assert (quadratic_step p c self = _add_slack_var_quadratic_constraint p c self) as ->.
    { unfold quadratic_step. by destruct (QuadraticConstraint.sense c). }
    rewrite (_add_slack_var_quadratic_constraint_eq _ _ _ d Hd Hm). fold m.
    destruct (quadratic_ineq m p c Hne) as [-> Hsl]. rewrite Hsl in Hfresh.
    rewrite decide_False.
    2:{ intros [Hi Hf]. by rewrite (Hint Hne Hi) in Hf. }
    by rewrite decide_True, Hsl.
Qed.

Lemma linear_loop_forward p m cs : ∀ self d,
  _dst self = Some d →
  _mode self = m →
  m ∈ valid_modes →
  (m = "integer" →
   Forall (λ c, LinearConstraint.sense c ≠ EQ → linear_any_float p c = false) cs) →
  NoDup (var_names (add_variables (cs ≫= linear_slacks m p) d)) →
  mapM (linear_step p) cs self
  = (Return ((linear_args ∘ rewritten_linear m p) <$> cs),
     with_dst (add_variables (cs ≫= linear_slacks m p) d) self).
Proof.
  induction cs as [|c cs IH]; intros self d Hd Hmode Hm Hint Hnd; simpl.
  - by rewrite add_variables_nil, (with_dst_id _ _ Hd).
  - rewrite var_names_add_variables, bind_cons, fmap_app in Hnd.
    rewrite bind_unfold, (linear_step_forward p c self d m); try done.
    + rewrite bind_unfold, (IH _ (add_variables (linear_slacks m p c) d)); try done.
      * by rewrite add_variables_app.
      * intros Hi. specialize (Hint Hi). by apply Forall_cons in Hint as [_ ?].
      * rewrite add_variables_app, var_names_add_variables, fmap_app. exact Hnd.
    + intros Hne Hi. specialize (Hint Hi). apply Forall_cons in Hint as [Hc _]. auto.
    + by eapply NoDup_app_fresh.
Qed.

Lemma quadratic_loop_forward p m cs : ∀ self d,
  _dst self = Some d →
  _mode self = m →
  m ∈ valid_modes →
  (m = "integer" →
   Forall (λ c, QuadraticConstraint.sense c ≠ EQ → quadratic_any_float p c = false) cs) →
  NoDup (var_names (add_variables (cs ≫= quadratic_slacks m p) d)) →
  mapM (quadratic_step p) cs self
  = (Return ((quadratic_args ∘ rewritten_quadratic m p) <$> cs),
     with_dst (add_variables (cs ≫= quadratic_slacks m p) d) self).
Proof.
  induction cs as [|c cs IH]; intros self d Hd Hmode Hm Hint Hnd; simpl.
  - by rewrite add_variables_nil, (with_dst_id _ _ Hd).
  - rewrite var_names_add_variables, bind_cons, fmap_app in Hnd.
    rewrite bind_unfold, (quadratic_step_forward p c self d m); try done.
    + rewrite bind_unfold, (IH _ (add_variables (quadratic_slacks m p c) d)); try done.
      * by rewrite add_variables_app.
      * intros Hi. specialize (Hint Hi). by apply Forall_cons in Hint as [_ ?].
      * rewrite add_variables_app, var_names_add_variables, fmap_app. exact Hnd.
    + intros Hne Hi. specialize (Hint Hi). apply Forall_cons in Hint as [Hc _]. auto.
    + by eapply NoDup_app_fresh.
Qed.

Lemma register_linear_iff cs : ∀ self d self',
  _dst self = Some d →
  forM_ (λ '(l, s, r, n), on_dst (linear_constraint l s r n)) (linear_args <$> cs) self
    = (Return tt, self')
  ↔ Forall (linear_keys_declared d) cs
    ∧ self' = with_dst (add_linear_constraints cs d) self.
Proof.
  induction cs as [|c cs IH]; intros self d self' Hd; simpl.
  - rewrite add_linear_constraints_nil, (with_dst_id _ _ Hd).
    split; [by intros [= <-]|by intros [_ ->]].
  - rewrite bind_Return. unfold on_dst at 1, linear_constraint at 1. rewrite Hd.
    set (d1 := QuadraticProgram.mk _ _ _ _ _).
    assert (∀ cs', add_linear_constraints cs' d1 = add_linear_constraints (c :: cs') d)
      as Hadd.
    { intros cs'. unfold add_linear_constraints, d1. simpl. rewrite <- app_assoc.
      by destruct c. }
    assert (∀ c', linear_keys_declared d1 c' ↔ linear_keys_declared d c') as Hdecl
      by done.
    split.
    + intros (u & s1 & H1 & H2). case_decide as Hk; [|done]. injection H1 as _ <-.
      apply (IH _ d1) in H2 as [Hcs ->]; [|done]. split.
      * constructor; [done|]. eapply Forall_impl; [exact Hcs|]. intros c'. apply Hdecl.
      * by rewrite Hadd.
    + intros [Hall ->]. apply Forall_cons in Hall as [Hc Hcs].
      rewrite decide_True by done. eexists tt, _. split; [reflexivity|].
      apply (IH _ d1); [done|]. split; [|by rewrite Hadd].
      eapply Forall_impl; [exact Hcs|]. intros c'. apply Hdecl.
Qed.

Lemma register_quadratic_iff cs : ∀ self d self',
  _dst self = Some d →
  forM_ (λ '(l, q, s, r, n), on_dst (quadratic_constraint l q s r n))
    (quadratic_args <$> cs) self = (Return tt, self')
  ↔ Forall (quadratic_keys_declared d) cs
    ∧ self' = with_dst (add_quadratic_constraints cs d) self.
Proof.
  induction cs as [|c cs IH]; intros self d self' Hd; simpl.
  - rewrite add_quadratic_constraints_nil, (with_dst_id _ _ Hd).
    split; [by intros [= <-]|by intros [_ ->]].
  - rewrite bind_Return. unfold on_dst at 1, quadratic_constraint at 1. rewrite Hd.
    set (d1 := QuadraticProgram.mk _ _ _ _ _).
    assert (∀ cs', add_quadratic_constraints cs' d1
                   = add_quadratic_constraints (c :: cs') d) as Hadd.
    { intros cs'. unfold add_quadratic_constraints, d1. simpl. rewrite <- app_assoc.
      by destruct c. }
    assert (∀ c', quadratic_keys_declared d1 c' ↔ quadratic_keys_declared d c')
      as Hdecl by done.
    split.
    + intros (u & s1 & H1 & H2). case_decide as Hk; [|done]. injection H1 as _ <-.
      apply (IH _ d1) in H2 as [Hcs ->]; [|done]. split.
      * constructor; [done|]. eapply Forall_impl; [exact Hcs|]. intros c'. apply Hdecl.
      * by rewrite Hadd.
    + intros [Hall ->]. apply Forall_cons in Hall as [Hc Hcs].
      rewrite decide_True by done. eexists tt, _. split; [reflexivity|].
      apply (IH _ d1); [done|]. split; [|by rewrite Hadd].
      eapply Forall_impl; [exact Hcs|]. intros c'. apply Hdecl.
Qed.

(** With a known mode, distinct names and, under "integer", integral
    coefficients, [convert] gets as far as registering the constraints, on a
    destination model that holds every variable and the objective. *)
Lemma convert_reaches_registration p self :
  let m := _mode self in
  m ∈ valid_modes →
  NoDup (var_names (converted m p)) →
  (m = "integer" →
   Forall (λ c, LinearConstraint.sense c ≠ EQ → linear_any_float p c = false)
     (QuadraticProgram.linear_constraints p)
   ∧ Forall (λ c, QuadraticConstraint.sense c ≠ EQ → quadratic_any_float p c = false)
       (QuadraticProgram.quadratic_constraints p)) →
  convert p self
  = (forM_ (λ '(l, s, r, n), on_dst (linear_constraint l s r n))
       (linear_args <$> QuadraticProgram.linear_constraints (converted m p));;
     forM_ (λ '(l, q, s, r, n), on_dst (quadratic_constraint l q s r n))
       (quadratic_args <$> QuadraticProgram.quadratic_constraints (converted m p));;
     get_dst)
      (mkConverter (Some p)
         (Some (QuadraticProgram.mk (QuadraticProgram.name p)
                  (QuadraticProgram.variables (converted m p)) [] []
                  (QuadraticProgram.objective p))) m).
Proof.
  intros m Hm Hnd Hint. rewrite convert_unfold.
  rewrite bind_unfold. simpl. rewrite bind_unfold. simpl.
  rewrite bind_unfold. simpl. fold m.
  rewrite decide_False by (intros H; by apply H).
  unfold converted, var_names in Hnd. simpl in Hnd. rewrite !fmap_app in Hnd.
  set (d0 := new_program (QuadraticProgram.name p)).
  set (xs := copied <$> QuadraticProgram.variables p) in *.
  set (ls := QuadraticProgram.linear_constraints p ≫= linear_slacks m p) in *.
  set (qs := QuadraticProgram.quadratic_constraints p ≫= quadratic_slacks m p) in *.
  assert (NoDup (var_names (add_variables xs d0))) as Hnd1.
  { rewrite var_names_add_variables. simpl. by apply NoDup_app in Hnd as (? & _). }
  assert (NoDup (var_names (add_variables ls (add_variables xs d0)))) as Hnd2.
  { rewrite !var_names_add_variables. simpl. rewrite app_assoc in Hnd.
    by apply NoDup_app in Hnd as (? & _). }
  assert (NoDup (var_names (add_variables qs (add_variables ls (add_variables xs d0)))))
    as Hnd3.
  { rewrite !var_names_add_variables. simpl. by rewrite <- app_assoc. }
  set (s0 := mkConverter (Some p) (Some d0) m).
  rewrite bind_unfold, (copy_loop_forward _ s0 d0 eq_refl Hnd1). lazy beta iota.
  rewrite bind_unfold.
  match goal with
  | |- context [mapM (linear_step p) ?cs ?s] =>
      rewrite (linear_loop_forward p m cs s (add_variables xs d0) eq_refl eq_refl Hm
                 (λ Hi, proj1 (Hint Hi)) Hnd2)
  end.
  lazy beta iota. rewrite bind_unfold.
  match goal with
  | |- context [mapM (quadratic_step p) ?cs ?s] =>
      rewrite (quadratic_loop_forward p m cs s (add_variables ls (add_variables xs d0))
                 eq_refl eq_refl Hm (λ Hi, proj2 (Hint Hi)) Hnd3)
  end.
  lazy beta iota. rewrite bind_unfold. simpl.
  rewrite !list_fmap_compose. unfold converted. simpl.
  unfold set_objective, add_variables, d0, new_program. simpl.
  destruct (QuadraticProgram.objective p). simpl.
  by rewrite <- !app_assoc.
Qed.

(** When [convert] returns, the collaborator being as modelled above (finite
    bounds, the interval of a product by the product rule): exactly on the
    models that are [convertible] under the stored mode, and then with the
    model [converted] and with [self] bound to the source and to that
    model. *)
Lemma convert_returns_iff p self d self' :
  convert p self = (Return d, self')
  ↔ convertible (_mode self) p
    ∧ d = converted (_mode self) p
    ∧ self' = mkConverter (Some p) (Some d) (_mode self).
Proof.
  set (m := _mode self).
  set (dv := QuadraticProgram.mk (QuadraticProgram.name p)
               (QuadraticProgram.variables (converted m p)) [] []
               (QuadraticProgram.objective p)).
  set (s0 := mkConverter (Some p) (Some dv) m).
  set (lcs := QuadraticProgram.linear_constraints (converted m p)).
  set (qcs := QuadraticProgram.quadratic_constraints (converted m p)).
  assert (add_quadratic_constraints qcs (add_linear_constraints lcs dv) = converted m p)
    as Hfinal by reflexivity.
  split.
  - intros H. pose proof H as H0.
    apply convert_Return in H0 as (Hm & -> & -> & Hnd & Hint). fold m in Hm, Hnd, Hint |- *.
    split_and!; [|done..]. split_and!; [done..| |].
    + rewrite (convert_reaches_registration p self Hm Hnd Hint) in H.
      apply bind_Return in H as ([] & s1 & H1 & _).
      by apply (register_linear_iff lcs s0 dv s1 eq_refl) in H1 as [? _].
    + rewrite (convert_reaches_registration p self Hm Hnd Hint) in H.
      apply bind_Return in H as ([] & s1 & H1 & H).
      apply (register_linear_iff lcs s0 dv s1 eq_refl) in H1 as [_ ->].
      apply bind_Return in H as ([] & s2 & H2 & _).
      by apply (register_quadratic_iff qcs (with_dst (add_linear_constraints lcs dv) s0)
                  (add_linear_constraints lcs dv) s2 eq_refl) in H2 as [? _].
  - intros ((Hm & Hnd & Hint & Hl & Hq) & -> & ->). fold m.
    rewrite (convert_reaches_registration p self Hm Hnd Hint). fold m dv s0 lcs qcs.
    rewrite bind_unfold.
    rewrite (proj2 (register_linear_iff lcs s0 dv _ eq_refl) (conj Hl eq_refl)).
    lazy beta iota. rewrite bind_unfold.
    rewrite (proj2 (register_quadratic_iff qcs (with_dst (add_linear_constraints lcs dv) s0)
                      (add_linear_constraints lcs dv) _ eq_refl) (conj Hq eq_refl)).
    reflexivity.
Qed.



Lemma copied_idem x : copied (copied x) = copied x.
Proof. unfold copied. by destruct (Var.vartype x). Qed.

Lemma slack_vars_copied mode name ub :
  Forall (λ x, copied x = x) (slack_vars mode name ub).
Proof.
  unfold slack_vars. destruct (Qlt_le_dec 0 ub); constructor; [|constructor].
  unfold copied, slack_kind. simpl. by case_decide.
Qed.

Lemma converted_variables_copied m p :
  Forall (λ x, copied x = x) (QuadraticProgram.variables (converted m p)).
Proof.
  unfold converted. simpl. rewrite !Forall_app. split_and!.
  - apply Forall_fmap, Forall_true. intros x. apply copied_idem.
  - apply Forall_bind, Forall_true. intros c. unfold compose, linear_slacks. cbv beta.
    destruct (LinearConstraint.sense c); [apply slack_vars_copied..|constructor].
  - apply Forall_bind, Forall_true. intros c. unfold compose, quadratic_slacks. cbv beta.
    destruct (QuadraticConstraint.sense c); [apply slack_vars_copied..|constructor].
Qed.

Lemma converted_equalities m p :
  Forall (λ c, LinearConstraint.sense c = EQ)
    (QuadraticProgram.linear_constraints (converted m p))
  ∧ Forall (λ c, QuadraticConstraint.sense c = EQ)
      (QuadraticProgram.quadratic_constraints (converted m p)).
Proof.
  unfold converted. simpl. split; apply Forall_fmap, Forall_true; intros c.
  - unfold rewritten_linear. simpl. by destruct (LinearConstraint.sense c) eqn:E.
  - unfold rewritten_quadratic. simpl. by destruct (QuadraticConstraint.sense c) eqn:E.
Qed.

(** A model of equalities whose variables are as [convert] makes them is
    its own conversion. *)
Lemma converted_fixed m d :
  Forall (λ x, copied x = x) (QuadraticProgram.variables d) →
  Forall (λ c, LinearConstraint.sense c = EQ) (QuadraticProgram.linear_constraints d) →
  Forall (λ c, QuadraticConstraint.sense c = EQ) (QuadraticProgram.quadratic_constraints d) →
  converted m d = d.
Proof.
  intros Hv Hl Hq. destruct d as [n vs ls qs o]. unfold converted. simpl in *.
  f_equal.
  - rewrite !list_bind_nil, !app_nil_r.
    + clear -Hv. induction Hv as [|x vs Hx _ IH]; [done|].
      rewrite fmap_cons. by f_equal.
    + eapply Forall_impl; [exact Hq|]. intros c He.
      by destruct (quadratic_equality m (QuadraticProgram.mk n vs ls qs o) c He)
        as (_ & ? & _).
    + eapply Forall_impl; [exact Hl|]. intros c He.
      by destruct (linear_equality m (QuadraticProgram.mk n vs ls qs o) c He)
        as (_ & ? & _).
  - clear -Hl. generalize (QuadraticProgram.mk n vs ls qs o). intros p.
    induction Hl as [|c ls Hc _ IH]; [done|]. rewrite fmap_cons.
    destruct (linear_equality m p c Hc) as (-> & _). by f_equal.
  - clear -Hq. generalize (QuadraticProgram.mk n vs ls qs o). intros p.
    induction Hq as [|c qs Hc _ IH]; [done|]. rewrite fmap_cons.
    destruct (quadratic_equality m p c Hc) as (-> & _). by f_equal.
Qed.

(** X3. [convert] is idempotent: a model it returned is converted to itself,
    without error, under every known mode. *)
Theorem convert_idempotent p self d self' self2 :
  convert p self = (Return d, self') →
  _mode self2 ∈ valid_modes →
  convert d self2 = (Return d, mkConverter (Some d) (Some d) (_mode self2)).
Proof.
  intros H Hm2.
  apply convert_returns_iff in H as ((_ & Hnd & _ & Hl & Hq) & -> & _).
  set (m := _mode self) in *. set (m2 := _mode self2) in *.
  destruct (converted_equalities m p) as [Hle Hqe].
  assert (converted m2 (converted m p) = converted m p) as Hfix.
  { apply converted_fixed; [apply converted_variables_copied|done..]. }
  apply convert_returns_iff. fold m2. rewrite Hfix.
  split_and!; [|done..]. unfold convertible. rewrite Hfix.
  split_and!; [done..| |done|done].
  intros _. split; (eapply Forall_impl; [eassumption|]); by intros c ->.
Qed.

Lemma convert_idempotent_witness :
  convert (converted "auto" ex_ge) (__init__ "continuous")
  = (Return (converted "auto" ex_ge),
     mkConverter (Some (converted "auto" ex_ge)) (Some (converted "auto" ex_ge))
       "continuous").
Proof.
  apply (convert_idempotent ex_ge (__init__ "auto") (converted "auto" ex_ge)
           (mkConverter (Some ex_ge) (Some (converted "auto" ex_ge)) "auto")
           (__init__ "continuous")).
  - vm_compute. reflexivity.
  - unfold valid_modes. simpl. set_solver.
Defined.

(** X4. No memory of earlier conversions: what [convert] returns or raises,
    and the state it leaves, depend on [self] through the stored mode
    only. *)
Theorem convert_forgets_previous_state p self :
  convert p self = convert p (__init__ (mode self)).
Proof. reflexivity. Qed.

Lemma slack_vars_spec mode name ub s :
  s ∈ slack_vars mode name ub →
  Var.vartype s = slack_kind mode ∧ Var.lowerbound s = 0
  ∧ Var.upperbound s = ub ∧ 0 < ub ∧ Var.name s = slack_name mode name.
Proof.
  unfold slack_vars. destruct (Qlt_le_dec 0 ub); [|by intros ?%elem_of_nil].
  by intros ->%list_elem_of_singleton.
Qed.

Lemma converted_slacks m p :
  drop (length (QuadraticProgram.variables p)) (QuadraticProgram.variables (converted m p))
  = (QuadraticProgram.linear_constraints p ≫= linear_slacks m p)
    ++ (QuadraticProgram.quadratic_constraints p ≫= quadratic_slacks m p).
Proof.
  unfold converted. simpl. rewrite drop_app_length'; [done|by rewrite length_fmap].
Qed.

Lemma converted_slack_inv m p s :
  s ∈ drop (length (QuadraticProgram.variables p))
        (QuadraticProgram.variables (converted m p)) →
  ∃ any_float name ub,
    s ∈ slack_vars (effective_mode m any_float) name ub.
Proof.
  rewrite converted_slacks, elem_of_app, !list_elem_of_bind.
  intros [(c & Hs & _)|(c & Hs & _)].
  - unfold linear_slacks, plan_slacks in Hs.
    destruct (LinearConstraint.sense c); [| |by apply elem_of_nil in Hs];
      by exists (linear_any_float p c), (LinearConstraint.name c),
                (plan_ub (linear_plan m p c)).
  - unfold quadratic_slacks, plan_slacks in Hs.
    destruct (QuadraticConstraint.sense c); [| |by apply elem_of_nil in Hs];
      by exists (quadratic_any_float p c), (QuadraticConstraint.name c),
                (plan_ub (quadratic_plan m p c)).
Qed.

(** X5. The documented meaning of the modes, on the model [convert]
    returns: every variable after the source variables has lower bound 0
    and a positive upper bound; under "integer" all of them are integer
    variables; under "continuous" all of them are continuous variables and
    every constraint keeps its right-hand side. *)
Theorem slack_kind_follows_mode p self d self' :
  convert p self = (Return d, self') →
  let slacks := drop (length (QuadraticProgram.variables p))
                  (QuadraticProgram.variables d) in
  Forall (λ s, Var.lowerbound s = 0 ∧ 0 < Var.upperbound s) slacks
  ∧ (_mode self = "integer" → Forall (λ s, Var.vartype s = INTEGER) slacks)
  ∧ (_mode self = "continuous" →
     Forall (λ s, Var.vartype s = CONTINUOUS) slacks
     ∧ Forall2 (λ c c', LinearConstraint.rhs c' = LinearConstraint.rhs c)
         (QuadraticProgram.linear_constraints p) (QuadraticProgram.linear_constraints d)
     ∧ Forall2 (λ c c', QuadraticConstraint.rhs c' = QuadraticConstraint.rhs c)
         (QuadraticProgram.quadratic_constraints p)
         (QuadraticProgram.quadratic_constraints d)).
Proof.
  intros H slacks. apply convert_Return in H as (_ & -> & _).
  split_and!.
  - apply Forall_forall. intros s Hs.
    apply converted_slack_inv in Hs as (af & n & ub & Hs).
    apply slack_vars_spec in Hs as (_ & -> & -> & ? & _). done.
  - intros Hm. apply Forall_forall. intros s Hs.
    apply converted_slack_inv in Hs as (af & n & ub & Hs).
    apply slack_vars_spec in Hs as (-> & _). by rewrite Hm.
  - intros Hm. split_and!.
    + apply Forall_forall. intros s Hs.
      apply converted_slack_inv in Hs as (af & n & ub & Hs).
      apply slack_vars_spec in Hs as (-> & _). by rewrite Hm.
    + unfold converted. simpl.
      apply Forall2_fmap_r, Forall_Forall2_diag, Forall_true. intros c.
      unfold compose, rewritten_linear, linear_plan, make_plan. rewrite Hm. cbv beta.
      by destruct (LinearConstraint.sense c).
    + unfold converted. simpl.
      apply Forall2_fmap_r, Forall_Forall2_diag, Forall_true. intros c.
      unfold compose, rewritten_quadratic, quadratic_plan, make_plan. rewrite Hm.
      cbv beta. by destruct (QuadraticConstraint.sense c).
Qed.

Lemma slack_kind_follows_mode_witness :
  Forall (λ s, Var.vartype s = CONTINUOUS)
    (drop (length (QuadraticProgram.variables ex_half))
       (QuadraticProgram.variables (converted "continuous" ex_half))).
Proof.
  destruct (slack_kind_follows_mode ex_half (__init__ "continuous")
              (converted "continuous" ex_half)
              (mkConverter (Some ex_half) (Some (converted "continuous" ex_half))
                 "continuous")) as (_ & _ & Hc).
  - vm_compute. reflexivity.
  - by destruct Hc as [Hc _].
Defined.

(** X6. [interpret] never changes [self], and as long as no conversion has
    bound a source and a destination model it raises the [ValueError] of
    line 269, whatever vector it is given. *)
Theorem interpret_uninitialized x self :
  (interpret x self).2 = self
  ∧ (_src self = None ∨ _dst self = None →
     interpret x self = (Raise (ValueError "QuadraticProgram not initialized!"), self)).
Proof.
  destruct self as [[p|] [d|] m]; unfold interpret;
    rewrite !bind_unfold; simpl; try (split; [reflexivity|by intros]).
  split; [|by intros [|]].
  rewrite !bind_unfold. unfold lift.
  by destruct (build_sol _ _ _ _).
Qed.

Lemma interpret_uninitialized_witness :
  interpret [1; 2] (__init__ "auto")
  = (Raise (ValueError "QuadraticProgram not initialized!"), __init__ "auto").
Proof.
  apply (interpret_uninitialized [1; 2] (__init__ "auto")). by left.
Defined.

Lemma build_sol_IndexError x names : ∀ i sol,
  (i ≤ length x)%nat →
  (length x < i + length names)%nat →
  build_sol x i names sol = Raise IndexError.
Proof.
  induction names as [|n names IH]; intros i sol Hi Hlen; simpl in *; [lia|].
  destruct (x !! i) as [v|] eqn:Hv; [|done].
  apply lookup_lt_Some in Hv. apply IH; lia.
Qed.

(** X7. The length of the vector given to [interpret] after a successful
    [convert]: with at least one entry per destination variable the result
    is the first entries of [x], one per source variable, and entries beyond
    the destination variables are ignored; with fewer entries [interpret]
    raises [IndexError]. *)
Theorem interpret_vector_length p self d self' (x : list Q) :
  convert p self = (Return d, self') →
  (length (QuadraticProgram.variables d) ≤ length x →
   interpret x self'
   = (Return (take (length (QuadraticProgram.variables p)) x), self'))%nat
  ∧ (length x < length (QuadraticProgram.variables d) →
     interpret x self' = (Raise IndexError, self'))%nat.
Proof.
  intros H. apply convert_Return in H as (_ & Hd & -> & Hnd & _).
  set (n := length (QuadraticProgram.variables p)).
  assert (n ≤ length (QuadraticProgram.variables d))%nat as Hn.
  { rewrite Hd. unfold converted. simpl. rewrite length_app, length_fmap. fold n. lia. }
  split; intros Hlen; unfold interpret;
    rewrite bind_unfold; simpl; rewrite bind_unfold; simpl; rewrite bind_unfold;
    unfold lift at 1.
  - destruct (build_sol_Return x (Var.name <$> QuadraticProgram.variables d) 0 ∅)
      as (sol & -> & Hin & _); [exact Hnd|rewrite length_fmap; simpl; lia|].
    unfold lift.
    rewrite (fill_new_x_Return sol _ 0 _ (take n x)).
    + simpl. unfold get_num_vars. fold n. rewrite drop_replicate.
      replace (n - n)%nat with 0%nat by lia. simpl. by rewrite app_nil_r.
    + apply Forall2_same_length_lookup_2.
      { rewrite length_take. fold n. lia. }
      intros i v q Hv Hq. apply lookup_take_Some in Hq as [Hq Hi].
      rewrite <- Hq. apply (Hin i). rewrite list_lookup_fmap, Hd.
      by rewrite (converted_variables_lookup _ _ _ _ Hv); simpl; rewrite copied_name.
    + unfold get_num_vars. rewrite length_replicate. simpl. lia.
  - rewrite build_sol_IndexError; [done|lia|]. rewrite length_fmap. simpl. lia.
Qed.

Lemma interpret_vector_length_witness :
  interpret [2; 5; 9] (mkConverter (Some ex_ge) (Some (converted "auto" ex_ge)) "auto")
  = (Return (take (length (QuadraticProgram.variables ex_ge)) [2; 5; 9]),
     mkConverter (Some ex_ge) (Some (converted "auto" ex_ge)) "auto").
Proof.
  apply (interpret_vector_length ex_ge (__init__ "auto") (converted "auto" ex_ge)).
  - vm_compute. reflexivity.
  - vm_compute. lia.
Defined.

Lemma on_dst_add_variable_footprint x self r self' :
  on_dst (_add_variable x) self = (r, self') →
  _src self' = _src self ∧ _mode self' = _mode self
  ∧ (∀ e, r = Raise e → self' = self)
  ∧ (∀ d, _dst self = Some d →
       ∃ xs, _dst self' = Some (add_variables xs d) ∧ (length xs ≤ 1)%nat).
Proof.
  unfold on_dst. destruct (_dst self) as [d|] eqn:Hd.
  - change (_add_variable x d) with
      (if decide (Var.name x ∈ var_names d)
       then Raise (QiskitOptimizationError
                     ("Variable name already exists: " +:+ Var.name x))
       else Return (add_variables [x] d)).
    case_decide; intros [= <- <-]; split_and!; try done.
    + intros d' [= <-]. exists []. rewrite add_variables_nil. split; [done|simpl; lia].
    + intros d' [= <-]. exists [x]. split; [done|simpl; lia].
  - intros [= <- <-]. split_and!; done.
Qed.

Lemma add_slack_footprint mode name var_ub sign linear self r self' :
  add_slack mode name var_ub sign linear self = (r, self') →
  _src self' = _src self ∧ _mode self' = _mode self
  ∧ (∀ e, r = Raise e → self' = self)
  ∧ (∀ d, _dst self = Some d →
       ∃ xs, _dst self' = Some (add_variables xs d) ∧ (length xs ≤ 1)%nat).
Proof.
  assert (∀ d, _dst self = Some d →
            ∃ xs, _dst self = Some (add_variables xs d) ∧ (length xs ≤ 1)%nat) as Hsame.
  { intros d Hd. exists []. rewrite add_variables_nil. split; [done|simpl; lia]. }
  unfold add_slack. destruct (Qlt_le_dec 0 var_ub).
  2:{ intros [= <- <-]. split_and!; done. }
  destruct (mode_name mode) as [tag|].
  2:{ intros [= <- <-]. split_and!; done. }
  assert (∀ x (v : gmap string Q),
            (on_dst (_add_variable x) ≫= λ _, mret v) self = (r, self') →
            _src self' = _src self ∧ _mode self' = _mode self
            ∧ (∀ e, r = Raise e → self' = self)
            ∧ (∀ d, _dst self = Some d →
                 ∃ xs, _dst self' = Some (add_variables xs d) ∧ (length xs ≤ 1)%nat))
    as Hadd.
  { intros x v. rewrite bind_unfold.
    destruct (on_dst (_add_variable x) self) as [[u|e] s] eqn:E;
      intros [= <- <-];
      destruct (on_dst_add_variable_footprint _ _ _ _ E) as (? & ? & Hr & ?);
      split_and!; try done. intros e' [= <-]. by apply (Hr e). }
  repeat case_decide; [apply Hadd..|].
  intros [= <- <-]. split_and!; done.
Qed.

(** X8. What a slack injection may touch: [self._src] and the mode never;
    when it raises, nothing at all; when it returns, the destination model
    differs from the one before by at most one variable, appended after the
    existing ones. *)
Theorem slack_injection_footprint owner self :
  (∀ c r self',
     _add_slack_var_linear_constraint owner c self = (r, self') →
     _src self' = _src self ∧ _mode self' = _mode self
     ∧ (∀ e, r = Raise e → self' = self)
     ∧ (∀ d, _dst self = Some d →
          ∃ xs, _dst self' = Some (add_variables xs d) ∧ (length xs ≤ 1)%nat))
  ∧ (∀ c r self',
       _add_slack_var_quadratic_constraint owner c self = (r, self') →
       _src self' = _src self ∧ _mode self' = _mode self
       ∧ (∀ e, r = Raise e → self' = self)
       ∧ (∀ d, _dst self = Some d →
            ∃ xs, _dst self' = Some (add_variables xs d) ∧ (length xs ≤ 1)%nat)).
Proof.
  assert (∀ d, _dst self = Some d →
            ∃ xs, _dst self = Some (add_variables xs d) ∧ (length xs ≤ 1)%nat) as Hsame.
  { intros d Hd. exists []. rewrite add_variables_nil. split; [done|simpl; lia]. }
  split; intros c r self'.
  - unfold _add_slack_var_linear_constraint. rewrite bind_unfold.
    unfold get_dst at 1. destruct (_dst self) as [d0|] eqn:Hd.
    2:{ intros [= <- <-]. split_and!; try done. }
    rewrite bind_unfold, resolve_mode_eq. case_decide.
    { intros [= <- <-]. split_and!; first [done|rewrite Hd; exact Hsame]. }
    destruct (slack_bound _ _ _ _) as [var_ub sign]. rewrite bind_unfold.
    destruct (add_slack _ _ _ _ _ self) as [[nl|e] s] eqn:E; intros [= <- <-];
      apply add_slack_footprint in E as (? & ? & Hr & Hx); rewrite Hd in Hx;
      (split_and!;
       [done|done|first [by intros ? [=]|intros ? _; by eapply Hr]|exact Hx]).
  - unfold _add_slack_var_quadratic_constraint. rewrite bind_unfold.
    unfold get_dst at 1. destruct (_dst self) as [d0|] eqn:Hd.
    2:{ intros [= <- <-]. split_and!; try done. }
    rewrite bind_unfold, resolve_mode_eq. case_decide.
    { intros [= <- <-]. split_and!; first [done|rewrite Hd; exact Hsame]. }
    destruct (slack_bound _ _ _ _) as [var_ub sign]. rewrite bind_unfold.
    destruct (add_slack _ _ _ _ _ self) as [[nl|e] s] eqn:E; intros [= <- <-];
      apply add_slack_footprint in E as (? & ? & Hr & Hx); rewrite Hd in Hx;
      (split_and!;
       [done|done|first [by intros ? [=]|intros ? _; by eapply Hr]|exact Hx]).
Qed.

Lemma slack_injection_footprint_witness :
  let d := add_variables [Var.mk "x" INTEGER 0 10] (new_program "le") in
  ∃ xs, Some (add_variables [Var.mk "c0@int_slack" INTEGER 0 3] d)
        = Some (add_variables xs d) ∧ (length xs ≤ 1)%nat.
Proof.
  intros d.
  pose (self := mkConverter (Some ex_le) (Some d) "auto").
  destruct (slack_injection_footprint ex_le self) as [Hlin _].
  destruct (Hlin (LinearConstraint.mk {["x" := 1]} LE (7 # 2) "c0")
              (Return (<["c0@int_slack" := 1]> {["x" := 1]}, EQ, 3, "c0"))
              (with_dst (add_variables [Var.mk "c0@int_slack" INTEGER 0 3] d) self))
    as (_ & _ & _ & Hx).
  - vm_compute. reflexivity.
  - apply (Hx d). reflexivity.
Defined.

Lemma slack_names_not_source m p s :
  NoDup (var_names (converted m p)) →
  s ∈ drop (length (QuadraticProgram.variables p))
        (QuadraticProgram.variables (converted m p)) →
  Var.name s ∉ var_names p.
Proof.
  rewrite converted_slacks. unfold var_names, converted. simpl. rewrite fmap_app.
  intros Hnd Hs Hin. apply NoDup_app in Hnd as (_ & Hdisj & _).
  apply (Hdisj (Var.name s)).
  - rewrite <- list_fmap_compose.
    apply list_elem_of_fmap in Hin as (x & Hx & Hin).
    apply list_elem_of_fmap. exists x. split; [|done]. simpl. by rewrite copied_name.
  - apply list_elem_of_fmap. eauto.
Qed.

(** X9. The reserved delimiter (line 42): when a variable of the source
    model bears the very name of the slack variable that one of its linear
    inequalities needs, [convert] does not return; it raises. *)
Theorem slack_name_clash_raises p self c x :
  c ∈ QuadraticProgram.linear_constraints p →
  LinearConstraint.sense c ≠ EQ →
  0 < plan_ub (linear_plan (_mode self) p c) →
  x ∈ QuadraticProgram.variables p →
  Var.name x
  = LinearConstraint.name c +:+ "@"
    +:+ slack_tag (effective_mode (_mode self) (linear_any_float p c)) +:+ "_slack" →
  ∃ e self', convert p self = (Raise e, self').
Proof.
  intros Hc Hne Hpos Hx Hname.
  destruct (convert p self) as [[d|e] self'] eqn:H; [exfalso|eauto].
  apply convert_Return in H as (_ & -> & _ & Hnd & _).
  destruct (linear_slack_created (_mode self) p c Hne Hpos) as [Hsl _].
  set (sl := Var.mk _ _ _ _) in Hsl.
  apply (slack_names_not_source (_mode self) p sl Hnd).
  - rewrite converted_slacks. apply elem_of_app. left.
    apply list_elem_of_bind. exists c. split; [|done]. rewrite Hsl. by left.
  - apply list_elem_of_fmap. exists x. split; [|done]. by rewrite Hname.
Qed.

Lemma slack_name_clash_raises_witness :
  ∃ e self', convert ex_clash (__init__ "auto") = (Raise e, self').
Proof.
  apply (slack_name_clash_raises ex_clash (__init__ "auto")
           (LinearConstraint.mk {["x" := 1]} LE 5 "c0")
           (Var.mk "c0@int_slack" INTEGER 0 1)).
  - by left.
  - done.
  - vm_compute. reflexivity.
  - right. by left.
  - vm_compute. reflexivity.
Defined.





Lemma slacks_length_le {A} (f : A → list Var.t) (P : A → Prop)
    `{∀ a, Decision (P a)} (cs : list A) :
  (∀ a, ¬ P a → f a = []) →
  (∀ a, (length (f a) ≤ 1)%nat) →
  (length (cs ≫= f) ≤ length (filter P cs))%nat.
Proof.
  intros Hnil Hone. induction cs as [|a cs IH]; [done|].
  rewrite bind_cons, length_app, filter_cons. case_decide as HP; simpl.
  - specialize (Hone a). lia.
  - rewrite (Hnil a HP). simpl. lia.
Qed.

Lemma slack_vars_length mode name ub : (length (slack_vars mode name ub) ≤ 1)%nat.
Proof. unfold slack_vars. destruct (Qlt_le_dec 0 ub); simpl; lia. Qed.

(** X11. At most one new variable per inequality: the returned model has
    no more variables than the source has variables and inequality
    constraints together. *)
Theorem convert_variable_count p self d self' :
  convert p self = (Return d, self') →
  (length (QuadraticProgram.variables p) ≤ length (QuadraticProgram.variables d)
   ∧ length (QuadraticProgram.variables d)
     ≤ length (QuadraticProgram.variables p)
       + length (filter (λ c, LinearConstraint.sense c ≠ EQ)
                   (QuadraticProgram.linear_constraints p))
       + length (filter (λ c, QuadraticConstraint.sense c ≠ EQ)
                   (QuadraticProgram.quadratic_constraints p)))%nat.
Proof.
  intros H. apply convert_Return in H as (_ & -> & _).
  unfold converted. simpl. rewrite !length_app, length_fmap.
  pose proof (slacks_length_le (linear_slacks (_mode self) p)
                (λ c, LinearConstraint.sense c ≠ EQ)
                (QuadraticProgram.linear_constraints p)) as Hl.
  pose proof (slacks_length_le (quadratic_slacks (_mode self) p)
                (λ c, QuadraticConstraint.sense c ≠ EQ)
                (QuadraticProgram.quadratic_constraints p)) as Hq.
  split; [lia|].
  enough ((length (QuadraticProgram.linear_constraints p
                   ≫= linear_slacks (_mode self) p)
           ≤ length (filter (λ c, LinearConstraint.sense c ≠ EQ)
                       (QuadraticProgram.linear_constraints p)))
          ∧ (length (QuadraticProgram.quadratic_constraints p
                     ≫= quadratic_slacks (_mode self) p)
             ≤ length (filter (λ c, QuadraticConstraint.sense c ≠ EQ)
                         (QuadraticProgram.quadratic_constraints p))))%nat by lia.
  split.
  - apply Hl.
    + intros c Hc. apply dec_stable in Hc.
      by destruct (linear_equality (_mode self) p c Hc) as (_ & ? & _).
    + intros c. unfold linear_slacks.
      destruct (LinearConstraint.sense c); [apply slack_vars_length..|simpl; lia].
  - apply Hq.
    + intros c Hc. apply dec_stable in Hc.
      by destruct (quadratic_equality (_mode self) p c Hc) as (_ & ? & _).
    + intros c. unfold quadratic_slacks.
      destruct (QuadraticConstraint.sense c); [apply slack_vars_length..|simpl; lia].
Qed.

Lemma convert_variable_count_witness :
  (length (QuadraticProgram.variables ex_redundant)
   ≤ length (QuadraticProgram.variables (converted "auto" ex_redundant)))%nat.
Proof.
  apply (convert_variable_count ex_redundant (__init__ "auto")
           (converted "auto" ex_redundant)
           (mkConverter (Some ex_redundant) (Some (converted "auto" ex_redundant)) "auto")).
  vm_compute. reflexivity.
Defined.

(** X12. Mode "integer" at the level of [convert]: if the linear part of
    some inequality of the model, linear or quadratic, has a fractional
    coefficient on a variable of the model, [convert] raises.  (A fractional
    coefficient of the quadratic part has no such effect.) *)
Theorem integer_mode_fractional_raises p self :
  _mode self = "integer" →
  (∃ c, c ∈ QuadraticProgram.linear_constraints p
        ∧ LinearConstraint.sense c ≠ EQ
        ∧ _any_float (linear_to_array p (LinearConstraint.linear c)) = true)
  ∨ (∃ c, c ∈ QuadraticProgram.quadratic_constraints p
          ∧ QuadraticConstraint.sense c ≠ EQ
          ∧ _any_float (linear_to_array p (QuadraticConstraint.linear c)) = true) →
  ∃ e self', convert p self = (Raise e, self').
Proof.
  intros Hm Hfloat.
  destruct (convert p self) as [[d|e] self'] eqn:H; [exfalso|eauto].
  apply convert_Return in H as (_ & _ & _ & _ & Hint).
  destruct (Hint Hm) as [Hl Hq]. rewrite Forall_forall in Hl. rewrite Forall_forall in Hq.
  destruct Hfloat as [(c & Hc & Hne & Hf)|(c & Hc & Hne & Hf)].
  - specialize (Hl c Hc Hne). unfold linear_any_float in Hl. congruence.
  - specialize (Hq c Hc Hne). unfold quadratic_any_float in Hq.
    rewrite Hf in Hq. discriminate Hq.
Qed.

Lemma integer_mode_fractional_raises_witness :
  ∃ e self', convert ex_half (__init__ "integer") = (Raise e, self').
Proof.
  apply (integer_mode_fractional_raises ex_half (__init__ "integer")).
  - reflexivity.
  - left. exists (LinearConstraint.mk {["y" := 1 # 2]} LE 3 "c0").
    split_and!; [by left|done|vm_compute; reflexivity].
Defined.

Lemma converted_auto_integer p :
  Forall (λ c, LinearConstraint.sense c ≠ EQ → linear_any_float p c = false)
    (QuadraticProgram.linear_constraints p) →
  Forall (λ c, QuadraticConstraint.sense c ≠ EQ → quadratic_any_float p c = false)
    (QuadraticProgram.quadratic_constraints p) →
  converted "auto" p = converted "integer" p.
Proof.
  intros Hl Hq.
  assert (Forall (λ c, linear_slacks "auto" p c = linear_slacks "integer" p c
                       ∧ rewritten_linear "auto" p c = rewritten_linear "integer" p c)
            (QuadraticProgram.linear_constraints p)) as Hl'.
  { eapply Forall_impl; [exact Hl|]. intros c Hc.
    destruct (decide (LinearConstraint.sense c = EQ)) as [He|Hne].
    - destruct (linear_equality "auto" p c He) as (-> & -> & _).
      by destruct (linear_equality "integer" p c He) as (-> & -> & _).
    - assert (linear_plan "auto" p c = linear_plan "integer" p c) as Hpl.
      { unfold linear_plan, make_plan. by rewrite (Hc Hne). }
      unfold linear_slacks, rewritten_linear. by rewrite Hpl. }
  assert (Forall (λ c, quadratic_slacks "auto" p c = quadratic_slacks "integer" p c
                       ∧ rewritten_quadratic "auto" p c
                         = rewritten_quadratic "integer" p c)
            (QuadraticProgram.quadratic_constraints p)) as Hq'.
  { eapply Forall_impl; [exact Hq|]. intros c Hc.
    destruct (decide (QuadraticConstraint.sense c = EQ)) as [He|Hne].
    - destruct (quadratic_equality "auto" p c He) as (-> & -> & _).
      by destruct (quadratic_equality "integer" p c He) as (-> & -> & _).
    - assert (quadratic_plan "auto" p c = quadratic_plan "integer" p c) as Hpl.
      { unfold quadratic_plan, make_plan. by rewrite (Hc Hne). }
      unfold quadratic_slacks, rewritten_quadratic. by rewrite Hpl. }
  unfold converted. f_equal.
  - f_equal. f_equal.
    + apply Forall_bind_ext. eapply Forall_impl; [exact Hl'|]. by intros c [? _].
    + apply Forall_bind_ext. eapply Forall_impl; [exact Hq'|]. by intros c [? _].
  - apply Forall_fmap_ext_1. eapply Forall_impl; [exact Hl'|]. by intros c [_ ?].
  - apply Forall_fmap_ext_1. eapply Forall_impl; [exact Hq'|]. by intros c [_ ?].
Qed.

(** X13. Mode "auto" uses integer slack variables where it can: on a model
    whose inequalities have integral coefficients only, [convert] under
    "auto" returns a model exactly when it does under "integer", and the
    same one. *)
Theorem auto_is_integer_when_possible p d self_auto self_integer :
  _mode self_auto = "auto" →
  _mode self_integer = "integer" →
  Forall (λ c, LinearConstraint.sense c ≠ EQ →
               _any_float (linear_to_array p (LinearConstraint.linear c)) = false)
    (QuadraticProgram.linear_constraints p) →
  Forall (λ c, QuadraticConstraint.sense c ≠ EQ →
               _any_float (linear_to_array p (QuadraticConstraint.linear c))
               || _any_float (quadratic_to_array p (QuadraticConstraint.quadratic c))
               = false)
    (QuadraticProgram.quadratic_constraints p) →
  (∃ self', convert p self_auto = (Return d, self'))
  ↔ (∃ self', convert p self_integer = (Return d, self')).
Proof.
  intros Ha Hi Hl Hq.
  pose proof (converted_auto_integer p Hl Hq) as Hconv.
  assert (convertible "auto" p ↔ convertible "integer" p) as Hible.
  { unfold convertible. rewrite Hconv. unfold valid_modes.
    split; intros (_ & ? & _ & ? & ?); (split_and!; [set_solver|done| |done|done]);
      [done|by intros _]. }
  split; intros [self' H]; apply convert_returns_iff in H as (Hc & -> & _);
    eexists; apply convert_returns_iff.
  - rewrite Ha in Hc |- *. rewrite Hi, <- Hconv. split_and!; [by apply Hible|done..].
  - rewrite Hi in Hc |- *. rewrite Ha, Hconv. split_and!; [by apply Hible|done..].
Qed.

Lemma auto_is_integer_when_possible_witness :
  (∃ self', convert ex_ge (__init__ "auto") = (Return (converted "auto" ex_ge), self'))
  ↔ (∃ self', convert ex_ge (__init__ "integer") = (Return (converted "auto" ex_ge), self')).
Proof.
  apply (auto_is_integer_when_possible ex_ge); [reflexivity..| |].
  - apply Forall_singleton. intros _. vm_compute. reflexivity.
  - constructor.
Defined.

End Further.
